(** * Extendible hash table (BusTub, [extendible_hash_table.cpp])

    A shallow embedding of the directory/bucket structure and of its
    split-and-grow insertion, followed by the properties of the
    specification that were checked against it.

    Buckets are shared objects ([std::shared_ptr<Bucket>]): several
    directory slots may hold the same pointer, and a bucket is mutated
    through any of them.  The embedding therefore keeps an explicit store
    of buckets and lets the directory hold locations into it.

    The latch ([std::scoped_lock]) serialises whole operations; the model
    is the sequential behaviour of one operation at a time. *)

From Stdlib Require Import ZArith Lia.
From stdpp Require Import base tactics numbers option list.

Local Open Scope Z_scope.

(** ** Results of running the code *)

(** The failures named by the specification.  No function of the source
    signals either of them; they are here so that the specification's
    error sentences can be stated about the code. *)
Inductive error := InvalidIndex | DepthExhausted.

(** What a call can do: return, signal a failure, run into behaviour the
    C++ standard leaves undefined (signed overflow, an over-wide shift, an
    unchecked [operator[]] out of range, a null dereference), or still be
    inside the [while] loop when the fuel of the model is spent. *)
Inductive outcome (A : Type) : Type :=
  | Done (a : A)
  | Failed (e : error)
  | Undefined
  | OutOfFuel.
Arguments Done {A} a.
Arguments Failed {A} e.
Arguments Undefined {A}.
Arguments OutOfFuel {A}.

(** ** [int] arithmetic *)

Definition INT_MAX : Z := 2 ^ 31 - 1.

(** [x++] on an [int]: signed overflow is undefined. *)
Definition int_incr (x : Z) : outcome Z :=
  if decide (x < INT_MAX) then Done (x + 1) else Undefined.

(** [(1 << d) - 1] computed in [int].  The shift is defined for
    [0 <= d < 32]; for [d = 31] the following subtraction overflows. *)
Definition int_mask (d : Z) : outcome Z :=
  if decide (0 ≤ d < 31) then Done (Z.shiftl 1 d - 1) else Undefined.

(** ** Data *)

(** A location in the bucket store. *)
Abbreviation loc := nat.
(** A [std::shared_ptr<Bucket>]; [None] is the null pointer that
    [vector::resize] fills new slots with. *)
Abbreviation ptr := (option loc).

Section Model.
Context {K V : Type} `{EqDecision K}.
(** [std::hash<K>()], a [size_t]. *)
Variable hash : K → Z.

Record Bucket := mkBucket {
  size_ : nat;               (* size_t size_ *)
  depth_ : Z;                (* int depth_ *)
  list_ : list (K * V)       (* std::list<std::pair<K, V>> list_ *)
}.

Record Table := mkTable {
  global_depth_ : Z;         (* int global_depth_ *)
  bucket_size_ : nat;        (* size_t bucket_size_ *)
  num_buckets_ : Z;          (* int num_buckets_ *)
  dir_ : list ptr;           (* std::vector<std::shared_ptr<Bucket>> dir_ *)
  heap_ : list Bucket        (* the buckets the pointers refer to *)
}.

Definition set_global_depth (g : Z) (t : Table) : Table :=
  mkTable g (bucket_size_ t) (num_buckets_ t) (dir_ t) (heap_ t).
Definition set_num_buckets (n : Z) (t : Table) : Table :=
  mkTable (global_depth_ t) (bucket_size_ t) n (dir_ t) (heap_ t).
Definition set_dir (d : list ptr) (t : Table) : Table :=
  mkTable (global_depth_ t) (bucket_size_ t) (num_buckets_ t) d (heap_ t).
Definition set_heap (h : list Bucket) (t : Table) : Table :=
  mkTable (global_depth_ t) (bucket_size_ t) (num_buckets_ t) (dir_ t) h.

(** ** The monad of table methods: state, with the outcomes above *)

Definition M (A : Type) : Type := Table → outcome (A * Table).

Definition ret {A} (a : A) : M A := λ t, Done (a, t).
Definition bind {A B} (m : M A) (f : A → M B) : M B := λ t,
  match m t with
  | Done (a, t') => f a t'
  | Failed e => Failed e
  | Undefined => Undefined
  | OutOfFuel => OutOfFuel
  end.
Definition gets {A} (f : Table → A) : M A := λ t, Done (f t, t).
Definition modify (f : Table → Table) : M unit := λ t, Done (tt, f t).
Definition lift {A} (o : outcome A) : M A := λ t,
  match o with
  | Done a => Done (a, t)
  | Failed e => Failed e
  | Undefined => Undefined
  | OutOfFuel => OutOfFuel
  end.

Notation "x ← m ; k" := (bind m (λ x, k))
  (at level 20, m at level 100, k at level 200, only parsing).
Notation "m ;; k" := (bind m (λ _, k))
  (at level 100, k at level 200, right associativity, only parsing).

(** A [for] loop over a sequence. *)
Fixpoint for_each {A} (xs : list A) (body : A → M unit) : M unit :=
  match xs with
  | [] => ret tt
  | x :: xs' => body x ;; for_each xs' body
  end.

(** [dir_[i]] read, for a [size_t] index: no bounds check. *)
Definition load_dir (i : Z) : M ptr := λ t,
  if decide (0 ≤ i) then
    match dir_ t !! Z.to_nat i with
    | Some p => Done (p, t)
    | None => Undefined
    end
  else Undefined.

(** [dir_[i] = p]. *)
Definition store_dir (i : Z) (p : ptr) : M unit := λ t,
  if decide (0 ≤ i < Z.of_nat (length (dir_ t))) then
    Done (tt, set_dir (<[Z.to_nat i := p]> (dir_ t)) t)
  else Undefined.

(** [*p] read and written. *)
Definition deref (p : ptr) : M Bucket := λ t,
  match p with
  | Some l =>
      match heap_ t !! l with
      | Some b => Done (b, t)
      | None => Undefined
      end
  | None => Undefined
  end.

Definition store (p : ptr) (b : Bucket) : M unit := λ t,
  match p with
  | Some l =>
      if decide (l < length (heap_ t))%nat then
        Done (tt, set_heap (<[l := b]> (heap_ t)) t)
      else Undefined
  | None => Undefined
  end.

(** [std::make_shared<Bucket>(...)]: a fresh location. *)
Definition make_shared (b : Bucket) : M ptr := λ t,
  Done (Some (length (heap_ t)), set_heap (heap_ t ++ [b]) t).

(** ** Bucket *)

(** [Bucket::Bucket(array_size, depth)]. *)
Definition Bucket_new (array_size : nat) (depth : Z) : Bucket :=
  mkBucket array_size depth [].

(** Modelled from the spec: the inline members of [Bucket] declared in
    [container/hash/extendible_hash_table.h], which is not among the
    sources.  [IsFull] is "entries.length == capacity"; [GetDepth]
    reads the local depth; [IncrementDepth] is "increment the bucket's
    localDepth by exactly 1"; [GetItems] gives the entries. *)
Definition IsFull (b : Bucket) : bool :=
  bool_decide (length (list_ b) = size_ b).
Definition GetDepth (b : Bucket) : Z := depth_ b.
Definition IncrementDepth (b : Bucket) : outcome Bucket :=
  match int_incr (depth_ b) with
  | Done d => Done (mkBucket (size_ b) d (list_ b))
  | Failed e => Failed e
  | Undefined => Undefined
  | OutOfFuel => OutOfFuel
  end.
Definition GetItems (b : Bucket) : list (K * V) := list_ b.

(** [Bucket::Find(key, value)]: the scan; [value] is the caller's
    variable, assigned only at a match. *)
Fixpoint find_list (key : K) (value : V) (l : list (K * V)) : bool * V :=
  match l with
  | [] => (false, value)
  | (k, v) :: l' =>
      if decide (k = key) then (true, v) else find_list key value l'
  end.
Definition Bucket_Find (key : K) (value : V) (b : Bucket) : bool * V :=
  find_list key value (list_ b).

(** [Bucket::Remove(key)]: erase the first match. *)
Fixpoint remove_list (key : K) (l : list (K * V)) : option (list (K * V)) :=
  match l with
  | [] => None
  | (k, v) :: l' =>
      if decide (k = key) then Some l'
      else match remove_list key l' with
           | Some r => Some ((k, v) :: r)
           | None => None
           end
  end.
Definition Bucket_Remove (key : K) (b : Bucket) : bool * Bucket :=
  match remove_list key (list_ b) with
  | Some l' => (true, mkBucket (size_ b) (depth_ b) l')
  | None => (false, b)
  end.

(** [Bucket::Insert(key, value)]: the scan that overwrites the first
    match, then the capacity test, then [emplace_back]. *)
Fixpoint assign_list (key : K) (value : V) (l : list (K * V))
  : option (list (K * V)) :=
  match l with
  | [] => None
  | (k, v) :: l' =>
      if decide (k = key) then Some ((k, value) :: l')
      else match assign_list key value l' with
           | Some r => Some ((k, v) :: r)
           | None => None
           end
  end.
Definition Bucket_Insert (key : K) (value : V) (b : Bucket) : bool * Bucket :=
  match assign_list key value (list_ b) with
  | Some l' => (true, mkBucket (size_ b) (depth_ b) l')
  | None =>
      if IsFull b then (false, b)
      else (true, mkBucket (size_ b) (depth_ b) (list_ b ++ [(key, value)]))
  end.

(** Calls through a pointer: [p->Find(..)], [p->Remove(..)],
    [p->Insert(..)], [p->GetDepth()], [p->IncrementDepth()]. *)
Definition call_Find (p : ptr) (key : K) (value : V) : M (bool * V) :=
  b ← deref p; ret (Bucket_Find key value b).
Definition call_Remove (p : ptr) (key : K) : M bool :=
  b ← deref p;
  let r := Bucket_Remove key b in
  store p r.2 ;; ret r.1.
Definition call_Insert (p : ptr) (key : K) (value : V) : M bool :=
  b ← deref p;
  let r := Bucket_Insert key value b in
  store p r.2 ;; ret r.1.
Definition call_GetDepth (p : ptr) : M Z :=
  b ← deref p; ret (GetDepth b).
Definition call_IncrementDepth (p : ptr) : M unit :=
  b ← deref p; b' ← lift (IncrementDepth b); store p b'.
Definition call_GetItems (p : ptr) : M (list (K * V)) :=
  b ← deref p; ret (GetItems b).

(** ** ExtendibleHashTable *)

(** The constructor: one bucket of depth 0 in the single slot.
    Modelled from the spec: the initial values of [global_depth_] and
    [num_buckets_], which the constructor's initialiser list leaves to
    the member declarations in the missing header: "global depth starts
    at 0, one bucket". *)
Definition new_table (bucket_size : nat) : Table :=
  mkTable 0 bucket_size 1 [Some 0%nat] [Bucket_new bucket_size 0].

(** [IndexOf]: [int mask = (1 << global_depth_) - 1; hash & mask]. *)
Definition IndexOf (key : K) : M Z :=
  gd ← gets global_depth_;
  mask ← lift (int_mask gd);
  ret (Z.land (hash key) mask).

Definition GetGlobalDepth : M Z := gets global_depth_.
Definition GetNumBuckets : M Z := gets num_buckets_.

(** [GetLocalDepth(int dir_index)]: [dir_[dir_index]->GetDepth()].  A
    negative [int] converts to a [size_t] beyond any vector. *)
Definition GetLocalDepth (dir_index : Z) : M Z :=
  bucket ← load_dir dir_index;
  call_GetDepth bucket.

Definition Find (key : K) (value : V) : M (bool * V) :=
  index ← IndexOf key;
  bucket ← load_dir index;
  call_Find bucket key value.

Definition Remove (key : K) : M bool :=
  index ← IndexOf key;
  bucket ← load_dir index;
  call_Remove bucket key.

(** [DoubleDirectory]: [resize] to twice the size (new slots null),
    then copy slot [i] to slot [i + old_size]. *)
Definition DoubleDirectory : M unit :=
  old_size ← gets (λ t, length (dir_ t));
  modify (λ t, set_dir (dir_ t ++ replicate old_size None) t) ;;
  for_each (seq 0 old_size) (λ i,
    p ← load_dir (Z.of_nat i);
    store_dir (Z.of_nat (i + old_size)) p).

Definition SplitBucket (key : K) : M unit :=
  index ← IndexOf key;
  bucket ← load_dir index;
  call_IncrementDepth bucket ;;
  d ← call_GetDepth bucket;
  bs ← gets bucket_size_;
  new_bucket ← make_shared (Bucket_new bs d);
  d ← call_GetDepth bucket;
  new_bucket2 ← make_shared (Bucket_new bs d);
  d ← call_GetDepth bucket;
  step1 ← lift (int_mask d);
  let step := Z.land step1 index in
  n ← gets (λ t, length (dir_ t));
  for_each (seq 0 n) (λ i,
    p ← load_dir (Z.of_nat i);
    if decide (Z.land (Z.of_nat i) step1 ≠ step ∧ p = bucket) then
      store_dir (Z.of_nat i) new_bucket
    else if decide (Z.land (Z.of_nat i) step1 = step ∧ p = bucket) then
      store_dir (Z.of_nat i) new_bucket2
    else ret tt) ;;
  nb ← gets num_buckets_;
  nb' ← lift (int_incr nb);
  modify (set_num_buckets nb') ;;
  items ← call_GetItems bucket;
  for_each items (λ item,
    let tempp := hash item.1 in
    if decide (Z.land step1 tempp ≠ step) then
      call_Insert new_bucket item.1 item.2 ;; ret tt
    else
      call_Insert new_bucket2 item.1 item.2 ;; ret tt).

(** [RedistributeBucket] has an empty body and no caller. *)
Definition RedistributeBucket (bucket : ptr) : M unit := ret tt.

(** The [while] loop of [Insert]; [fuel] bounds its iterations. *)
Fixpoint Insert_loop (fuel : nat) (key : K) (value : V) (bucket : ptr)
  : M unit :=
  match fuel with
  | O => λ _, OutOfFuel
  | S fuel' =>
      ok ← call_Insert bucket key value;
      if ok then ret tt
      else
        gd ← gets global_depth_;
        d ← call_GetDepth bucket;
        (if decide (gd = d) then
           gd' ← lift (int_incr gd);
           modify (set_global_depth gd') ;;
           DoubleDirectory
         else ret tt) ;;
        SplitBucket key ;;
        index ← IndexOf key;
        bucket' ← load_dir index;
        Insert_loop fuel' key value bucket'
  end.

Definition Insert (fuel : nat) (key : K) (value : V) : M unit :=
  index ← IndexOf key;
  bucket ← load_dir index;
  Insert_loop fuel key value bucket.

(** ** Notions the properties are stated with *)

(** The states a client can observe: the constructed table and what the
    public methods make of it when they return. *)
Inductive reachable : Table → Prop :=
  | reachable_new bucket_size :
      reachable (new_table bucket_size)
  | reachable_Insert t fuel key value t' :
      reachable t → Insert fuel key value t = Done (tt, t') → reachable t'
  | reachable_Remove t key r t' :
      reachable t → Remove key t = Done (r, t') → reachable t'
  | reachable_Find t key value r t' :
      reachable t → Find key value t = Done (r, t') → reachable t'
  | reachable_GetGlobalDepth t r t' :
      reachable t → GetGlobalDepth t = Done (r, t') → reachable t'
  | reachable_GetLocalDepth t i r t' :
      reachable t → GetLocalDepth i t = Done (r, t') → reachable t'
  | reachable_GetNumBuckets t r t' :
      reachable t → GetNumBuckets t = Done (r, t') → reachable t'.

(** Directory slot [i] refers to the bucket [b], stored at [l]. *)
Definition slot (t : Table) (i : nat) (l : loc) (b : Bucket) : Prop :=
  dir_ t !! i = Some (Some l) ∧ heap_ t !! l = Some b.

(** The number of directory slots that hold the pointer [l]. *)
Definition slot_count (l : loc) (t : Table) : nat :=
  length (filter (λ p, p = Some l) (dir_ t)).

(** The number of distinct buckets the directory refers to. *)
Definition bucket_count (t : Table) : nat := length (remove_dups (dir_ t)).

(** [(key, v)] is the entry a scan of [l] for [key] stops at. *)
Definition first_entry (key : K) (v : V) (l : list (K * V)) : Prop :=
  ∃ l1 l2, l = l1 ++ (key, v) :: l2 ∧ key ∉ l1.*1.

(** [key] is stored with value [v] in some bucket of the directory. *)
Definition stored (t : Table) (key : K) (v : V) : Prop :=
  ∃ i l b, slot t i l b ∧ first_entry key v (list_ b).

(** [key] occurs in some bucket of the directory. *)
Definition present (t : Table) (key : K) : Prop :=
  ∃ i l b, slot t i l b ∧ key ∈ (list_ b).*1.

(** The bucket the directory gives for [key]: [dir_[IndexOf(key)]]. *)
Definition addressed (key : K) (t : Table) (l : loc) (b : Bucket) : Prop :=
  0 ≤ global_depth_ t < 31 ∧
  slot t (Z.to_nat (hash key mod 2 ^ global_depth_ t)) l b.

(** [x] and [y] agree on their [d] low bits. *)
Definition same_low (d x y : Z) : Prop := x mod 2 ^ d = y mod 2 ^ d.

Global Instance same_low_dec d x y : Decision (same_low d x y).
Proof. unfold same_low. apply _. Defined.

(** What the split of the bucket at [l] makes of slot [i] holding [p],
    the two fresh buckets being at [n] and [S n]: a slot of the split
    bucket goes to [S n] when it agrees with [index] on [d] low bits,
    to [n] otherwise. *)
Definition split_slot (l n : loc) (d index : Z) (i : nat) (p : ptr) : ptr :=
  if decide (p = Some l) then
    if decide (same_low d (Z.of_nat i) index) then Some (S n) else Some n
  else p.

(** [m] signals no failure, in any state. *)
Definition no_fail {A} (m : M A) : Prop := ∀ t e, m t ≠ Failed e.

(** The bucket addressed by [key] is full of other keys whose hashes
    agree with that of [key] on the 30 low bits, all that a directory
    index computed in [int] can tell apart. *)
Definition clustered (key : K) (t : Table) : Prop :=
  ∃ l b, addressed key t l b ∧
    (key ∉ (list_ b).*1) ∧
    length (list_ b) = size_ b ∧
    ∀ k, k ∈ (list_ b).*1 → same_low 30 (hash k) (hash key).

(** The table after [global_depth_++; DoubleDirectory()]. *)
Definition grown (t : Table) : Table :=
  set_dir (dir_ t ++ dir_ t) (set_global_depth (global_depth_ t + 1) t).

(** What holds of a bucket seen from slot [i]: its depth is within the
    global depth, it has the table's capacity and respects it, its keys
    are distinct, the slots that share it are those agreeing with [i]
    on [depth_] low bits, and so do the hashes of its keys. *)
Record bucket_ok (t : Table) (i : nat) (l : loc) (b : Bucket) : Prop := {
  ok_depth : 0 ≤ depth_ b ≤ global_depth_ t;
  ok_size : size_ b = bucket_size_ t;
  ok_length : (length (list_ b) ≤ size_ b)%nat;
  ok_nodup : NoDup (list_ b).*1;
  ok_slots : ∀ j, (j < length (dir_ t))%nat →
    dir_ t !! j = Some (Some l) ↔ same_low (depth_ b) (Z.of_nat j) (Z.of_nat i);
  ok_keys : ∀ k, k ∈ (list_ b).*1 → same_low (depth_ b) (hash k) (Z.of_nat i)
}.

(** The invariant of the table. *)
Record Inv (t : Table) : Prop := {
  Inv_depth : 0 ≤ global_depth_ t;
  Inv_length : Z.of_nat (length (dir_ t)) = 2 ^ global_depth_ t;
  Inv_slots : ∀ i p, dir_ t !! i = Some p →
    ∃ l b, p = Some l ∧ heap_ t !! l = Some b ∧ bucket_ok t i l b
}.

End Model.

Arguments Bucket : clear implicits.
Arguments Table : clear implicits.
Arguments M : clear implicits.

(** ** The instance [ExtendibleHashTable<int, int>] *)

(** [std::hash<int>] is the conversion to [size_t]. *)
Definition int_hash (k : Z) : Z := k mod 2 ^ 64.

(** The state a call leaves, [d] when it does not return. *)
Definition state_after {A} (o : outcome (A * Table Z Z)) (d : Table Z Z)
  : Table Z Z :=
  match o with Done (_, t) => t | _ => d end.

(** The table with capacity [n] after inserting the pairs of [kvs] in order. *)
Definition table_of (n : nat) (kvs : list (Z * Z)) : Table Z Z :=
  fold_left (λ t kv, state_after (Insert int_hash 64 kv.1 kv.2 t) t) kvs
    (new_table n).

(** Capacity 2 and the keys 0, 4, 8, 3: global depth 3, four buckets. *)
Definition example_table : Table Z Z :=
  table_of 2 [(0, 10); (4, 11); (8, 12); (3, 13)].


(** * Proofs *)

Section Proofs.
Context {K V : Type} `{EqDecision K}.
Variable hash : K → Z.

Abbreviation Bucket := (Bucket K V).
Abbreviation Table := (Table K V).
Abbreviation M := (M K V).

Implicit Types (t : Table) (b : Bucket) (key k : K) (value v : V)
  (p bucket : ptr).

(** ** Running monadic code backwards *)

Lemma bind_Done {A B} (m : M A) (f : A → M B) t r :
  bind m f t = Done r ↔ ∃ a t1, m t = Done (a, t1) ∧ f a t1 = Done r.
Proof.
  unfold bind. split.
  - destruct (m t) as [[a t1]| | |]; try discriminate. eauto.
  - intros (a & t1 & -> & Hf). exact Hf.
Qed.

Lemma ret_Done {A} (a : A) t r : ret a t = Done r ↔ r = (a, t).
Proof. unfold ret. split; [intros [= <-]|intros ->]; done. Qed.

Lemma gets_Done {A} (f : Table → A) t r : gets f t = Done r ↔ r = (f t, t).
Proof. unfold gets. split; [intros [= <-]|intros ->]; done. Qed.

Lemma modify_Done (f : Table → Table) t r : modify f t = Done r ↔ r = (tt, f t).
Proof. unfold modify. split; [intros [= <-]|intros ->]; done. Qed.

Lemma lift_Done {A} (o : outcome A) t r :
  lift o t = Done r ↔ ∃ a, o = Done a ∧ r = (a, t).
Proof.
  unfold lift. destruct o; split; try (intros (? & ? & ?)); try discriminate.
  - intros [= <-]. eauto.
  - by simplify_eq.
Qed.

Lemma load_dir_Done i t r :
  load_dir i t = Done r ↔ ∃ p, 0 ≤ i ∧ dir_ t !! Z.to_nat i = Some p ∧ r = (p, t).
Proof.
  unfold load_dir. case_decide.
  - destruct (dir_ t !! Z.to_nat i) eqn:E; split.
    + intros [= <-]. eauto.
    + intros (? & ? & ? & ->). by simplify_eq.
    + discriminate.
    + intros (? & ? & ? & ->). by simplify_eq.
  - split; [discriminate|]. intros (? & ? & ?). lia.
Qed.

Lemma store_dir_Done i p t r :
  store_dir i p t = Done r ↔
  0 ≤ i < Z.of_nat (length (dir_ t)) ∧ r = (tt, set_dir (<[Z.to_nat i := p]> (dir_ t)) t).
Proof.
  unfold store_dir. case_decide; split.
  - intros [= <-]. done.
  - by intros [_ ->].
  - discriminate.
  - intros [? _]. lia.
Qed.

Lemma deref_Done p t r :
  deref p t = Done r ↔ ∃ l b, p = Some l ∧ heap_ t !! l = Some b ∧ r = (b, t).
Proof.
  unfold deref. destruct p as [l|].
  - destruct (heap_ t !! l) eqn:E; split.
    + intros [= <-]. eauto.
    + intros (? & ? & ? & ? & ->). by simplify_eq.
    + discriminate.
    + intros (? & ? & ? & ? & ->). by simplify_eq.
  - split; [discriminate|]. intros (? & ? & ? & ?). discriminate.
Qed.

Lemma store_Done p b t r :
  store p b t = Done r ↔
  ∃ l, p = Some l ∧ (l < length (heap_ t))%nat ∧
       r = (tt, set_heap (<[l := b]> (heap_ t)) t).
Proof.
  unfold store. destruct p as [l|].
  - case_decide; split.
    + intros [= <-]. eauto.
    + intros (? & ? & ? & ->). by simplify_eq.
    + discriminate.
    + intros (? & ? & ? & ->). simplify_eq. lia.
  - split; [discriminate|]. intros (? & ? & ?). discriminate.
Qed.

Lemma make_shared_Done b t r :
  make_shared b t = Done r ↔
  r = (Some (length (heap_ t)), set_heap (heap_ t ++ [b]) t).
Proof. unfold make_shared. split; [intros [= <-]|intros ->]; done. Qed.

Lemma int_mask_Done d m :
  int_mask d = Done m ↔ 0 ≤ d < 31 ∧ m = Z.ones d.
Proof.
  unfold int_mask, Z.ones. case_decide; split.
  - intros [= <-]. split; [done|lia].
  - intros [_ ->]. f_equal; lia.
  - discriminate.
  - intros [? _]. lia.
Qed.

Lemma int_incr_Done x y :
  int_incr x = Done y ↔ x < INT_MAX ∧ y = x + 1.
Proof.
  unfold int_incr. case_decide; split.
  - intros [= <-]. done.
  - by intros [_ ->].
  - discriminate.
  - intros [? _]. lia.
Qed.

Lemma IncrementDepth_Done b b' :
  IncrementDepth b = Done b' ↔
  depth_ b < INT_MAX ∧ b' = mkBucket (size_ b) (depth_ b + 1) (list_ b).
Proof.
  unfold IncrementDepth, int_incr. case_decide; split.
  - intros [= <-]. done.
  - by intros [_ ->].
  - discriminate.
  - intros [? _]. lia.
Qed.

(** Decomposes every hypothesis that says monadic code returned. *)
Ltac run0_step :=
  match goal with
  | H : bind _ _ _ = Done _ |- _ =>
      apply bind_Done in H; destruct H as (? & ? & ? & H)
  | H : ret _ _ = Done _ |- _ => apply ret_Done in H; simplify_eq
  | H : gets _ _ = Done _ |- _ => apply gets_Done in H; simplify_eq
  | H : modify _ _ = Done _ |- _ => apply modify_Done in H; simplify_eq
  | H : lift _ _ = Done _ |- _ =>
      apply lift_Done in H; destruct H as (? & ? & ?); simplify_eq
  | H : load_dir _ _ = Done _ |- _ =>
      apply load_dir_Done in H; destruct H as (? & ? & ? & ?); simplify_eq
  | H : store_dir _ _ _ = Done _ |- _ =>
      apply store_dir_Done in H; destruct H as (? & ?); simplify_eq
  | H : deref _ _ = Done _ |- _ =>
      apply deref_Done in H; destruct H as (? & ? & ? & ? & ?); simplify_eq
  | H : store _ _ _ = Done _ |- _ =>
      apply store_Done in H; destruct H as (? & ? & ? & ?); simplify_eq
  | H : make_shared _ _ = Done _ |- _ =>
      apply make_shared_Done in H; simplify_eq
  | H : int_mask _ = Done _ |- _ =>
      apply int_mask_Done in H; destruct H as (? & ?); simplify_eq
  | H : int_incr _ = Done _ |- _ =>
      apply int_incr_Done in H; destruct H as (? & ?); simplify_eq
  | H : IncrementDepth _ = Done _ |- _ =>
      apply IncrementDepth_Done in H; destruct H as (? & ?); simplify_eq
  end.
Ltac simpl_table :=
  cbn [heap_ dir_ global_depth_ bucket_size_ num_buckets_
       set_heap set_dir set_global_depth set_num_buckets
       size_ depth_ list_ Bucket_new] in *.
Ltac run0 := repeat (run0_step; simpl_table).

(** ** Buckets: the three scans *)

Lemma find_list_absent key value (l : list (K * V)) :
  key ∉ l.*1 → find_list key value l = (false, value).
Proof.
  induction l as [|[k v] l IH]; simpl; [done|].
  intros Hn. apply not_elem_of_cons in Hn as [Hk Hl].
  case_decide; [congruence|]. by apply IH.
Qed.

Lemma find_list_false key value (l : list (K * V)) v' :
  find_list key value l = (false, v') → (key ∉ l.*1) ∧ v' = value.
Proof.
  induction l as [|[k v] l IH]; simpl.
  - intros [= <-]. split; [apply not_elem_of_nil|done].
  - case_decide; [discriminate|]. intros Hf. destruct (IH Hf) as [Hl ->].
    split; [|done]. apply not_elem_of_cons. split; [congruence|done].
Qed.

Lemma find_list_true key value (l : list (K * V)) v' :
  find_list key value l = (true, v') ↔ first_entry key v' l.
Proof.
  split.
  - induction l as [|[k v] l IH]; simpl; [discriminate|].
    case_decide as Hk.
    + intros [= <-]. subst k. exists [], l. split; [done|apply not_elem_of_nil].
    + intros Hf. destruct (IH Hf) as (l1 & l2 & -> & Hn).
      exists ((k, v) :: l1), l2. split; [done|].
      simpl. apply not_elem_of_cons. split; [congruence|done].
  - intros (l1 & l2 & -> & Hn).
    induction l1 as [|[k v] l1 IH]; simpl.
    + by rewrite decide_True.
    + simpl in Hn. apply not_elem_of_cons in Hn as [Hk Hn].
      rewrite decide_False by congruence. by apply IH.
Qed.

(** The result of a scan does not depend on the caller's variable when
    the key is there. *)
Lemma find_list_found key value value' (l : list (K * V)) v :
  find_list key value l = (true, v) → find_list key value' l = (true, v).
Proof. rewrite !find_list_true. done. Qed.

Lemma find_list_app_absent key value (l l' : list (K * V)) :
  key ∉ l.*1 → find_list key value (l ++ l') = find_list key value l'.
Proof.
  induction l as [|[k v] l IH]; simpl; [done|].
  intros Hn. apply not_elem_of_cons in Hn as [Hk Hl].
  rewrite decide_False by congruence. by apply IH.
Qed.

Lemma find_list_snoc_ne key k value v (l : list (K * V)) :
  k ≠ key → find_list key value (l ++ [(k, v)]) = find_list key value l.
Proof.
  intros Hk. induction l as [|[k' v'] l IH]; simpl.
  - by rewrite decide_False.
  - case_decide; [done|apply IH].
Qed.

Lemma assign_list_None key value (l : list (K * V)) :
  assign_list key value l = None ↔ key ∉ l.*1.
Proof.
  induction l as [|[k v] l IH]; simpl.
  - split; [intros _; apply not_elem_of_nil|done].
  - rewrite not_elem_of_cons. case_decide as Hk.
    + split; [discriminate|]. intros [? _]. congruence.
    + destruct (assign_list key value l) eqn:E.
      * split; [discriminate|]. intros [_ Hl]. apply IH in Hl. discriminate.
      * split; [|done]. intros _. split; [congruence|]. by apply IH.
Qed.

Lemma assign_list_Some key value (l l' : list (K * V)) :
  assign_list key value l = Some l' →
  l'.*1 = l.*1 ∧ key ∈ l.*1 ∧
  (∀ x, find_list key x l' = (true, value)) ∧
  (∀ k x, k ≠ key → find_list k x l' = find_list k x l).
Proof.
  revert l'. induction l as [|[k v] l IH]; simpl; [discriminate|].
  intros l'. case_decide as Hk.
  - intros [= <-]. subst k. simpl. split_and!; [done|apply list_elem_of_here| |].
    + intros x. by rewrite decide_True.
    + intros k x Hne. by rewrite !decide_False.
  - destruct (assign_list key value l) as [r|] eqn:E; [|discriminate].
    intros [= <-]. destruct (IH r eq_refl) as (Hk1 & Hin & Hf & Ho).
    simpl. split_and!.
    + simpl. by f_equal.
    + by apply list_elem_of_further.
    + intros x. rewrite decide_False by done. apply Hf.
    + intros k' x Hne. case_decide; [done|]. by apply Ho.
Qed.

Lemma remove_list_None key (l : list (K * V)) :
  remove_list key l = None ↔ key ∉ l.*1.
Proof.
  induction l as [|[k v] l IH]; simpl.
  - split; [intros _; apply not_elem_of_nil|done].
  - rewrite not_elem_of_cons. case_decide as Hk.
    + split; [discriminate|]. intros [? _]. congruence.
    + destruct (remove_list key l) eqn:E.
      * split; [discriminate|]. intros [_ Hl]. apply IH in Hl. discriminate.
      * split; [|done]. intros _. split; [congruence|]. by apply IH.
Qed.

Lemma remove_list_Some key (l l' : list (K * V)) :
  remove_list key l = Some l' →
  key ∈ l.*1 ∧ l'.*1 ⊆ l.*1 ∧ S (length l') = length l ∧
  (NoDup l.*1 → NoDup l'.*1 ∧ (key ∉ l'.*1)) ∧
  (∀ k x, k ≠ key → find_list k x l' = find_list k x l).
Proof.
  revert l'. induction l as [|[k v] l IH]; simpl; [discriminate|].
  intros l'. case_decide as Hk.
  - intros [= <-]. subst k. split_and!.
    + apply list_elem_of_here.
    + intros x Hx. by apply list_elem_of_further.
    + done.
    + intros Hnd. apply NoDup_cons in Hnd. tauto.
    + intros k x Hne. by rewrite decide_False.
  - destruct (remove_list key l) as [r|] eqn:E; [|discriminate].
    intros [= <-]. destruct (IH r eq_refl) as (Hin & Hsub & Hlen & Hnd & Ho).
    simpl. split_and!.
    + by apply list_elem_of_further.
    + intros x Hx. apply elem_of_cons in Hx as [->|Hx].
      * apply list_elem_of_here.
      * apply list_elem_of_further. by apply Hsub.
    + by rewrite Hlen.
    + intros Hnd'. apply NoDup_cons in Hnd' as [Hk' Hnd'].
      destruct (Hnd Hnd') as [Hr Hkr]. split.
      * apply NoDup_cons. split; [|done]. intros Hx. apply Hk'. by apply Hsub.
      * apply not_elem_of_cons. split; [congruence|done].
    + intros k' x Hne. case_decide; [done|]. by apply Ho.
Qed.

(** ** Buckets: the methods *)

Lemma Bucket_Insert_true key value b b' :
  Bucket_Insert key value b = (true, b') →
  size_ b' = size_ b ∧ depth_ b' = depth_ b ∧
  (∀ x, find_list key x (list_ b') = (true, value)) ∧
  (∀ k x, k ≠ key → find_list k x (list_ b') = find_list k x (list_ b)) ∧
  (∀ k, k ∈ (list_ b').*1 → k = key ∨ k ∈ (list_ b).*1) ∧
  (NoDup (list_ b).*1 → NoDup (list_ b').*1) ∧
  ((length (list_ b) ≤ size_ b)%nat → (length (list_ b') ≤ size_ b)%nat).
Proof.
  unfold Bucket_Insert, IsFull.
  destruct (assign_list key value (list_ b)) as [l'|] eqn:E.
  - intros [= <-]. simpl.
    destruct (assign_list_Some _ _ _ _ E) as (Hk & Hin & Hf & Ho).
    split_and!; try done.
    + intros k. rewrite Hk. auto.
    + by rewrite Hk.
    + assert (length l' = length (list_ b)) as ->; [|done].
      by rewrite <-(length_fmap fst l'), Hk, length_fmap.
  - apply assign_list_None in E. case_bool_decide as Hfull; [discriminate|].
    intros [= <-]. simpl. split_and!; try done.
    + intros x. rewrite find_list_app_absent by done. simpl. by rewrite decide_True.
    + intros k x Hne. by apply find_list_snoc_ne.
    + intros k. rewrite fmap_app, elem_of_app. simpl.
      rewrite elem_of_cons. intros [?|[?|[]%elem_of_nil]]; auto.
    + intros Hnd. rewrite fmap_app. apply NoDup_app. split_and!; [done| |].
      * intros x Hx. simpl. rewrite elem_of_cons. intros [->|?%elem_of_nil]; done.
      * simpl. apply NoDup_singleton.
    + rewrite length_app. simpl. lia.
Qed.

Lemma Bucket_Insert_false key value b b' :
  Bucket_Insert key value b = (false, b') →
  b' = b ∧ (key ∉ (list_ b).*1) ∧ length (list_ b) = size_ b.
Proof.
  unfold Bucket_Insert, IsFull.
  destruct (assign_list key value (list_ b)) as [l'|] eqn:E; [discriminate|].
  apply assign_list_None in E. case_bool_decide as Hfull; [|discriminate].
  by intros [= <-].
Qed.

(** A key that is there is overwritten, whatever the fill of the bucket. *)
Lemma Bucket_Insert_present key value b :
  key ∈ (list_ b).*1 →
  ∃ l', assign_list key value (list_ b) = Some l' ∧
        Bucket_Insert key value b = (true, mkBucket (size_ b) (depth_ b) l').
Proof.
  intros Hin. unfold Bucket_Insert.
  destruct (assign_list key value (list_ b)) as [l'|] eqn:E; [eauto|].
  by apply assign_list_None in E.
Qed.

(** Appending to a bucket with room, as the redistribution does. *)
Lemma Bucket_Insert_fresh key value b :
  key ∉ (list_ b).*1 → (length (list_ b) < size_ b)%nat →
  Bucket_Insert key value b =
    (true, mkBucket (size_ b) (depth_ b) (list_ b ++ [(key, value)])).
Proof.
  intros Hn Hlen. unfold Bucket_Insert, IsFull.
  rewrite (proj2 (assign_list_None key value _) Hn).
  rewrite bool_decide_eq_false_2 by lia. done.
Qed.

Lemma Bucket_Remove_true key b b' :
  Bucket_Remove key b = (true, b') →
  size_ b' = size_ b ∧ depth_ b' = depth_ b ∧
  key ∈ (list_ b).*1 ∧ (list_ b').*1 ⊆ (list_ b).*1 ∧
  (length (list_ b') ≤ length (list_ b))%nat ∧
  (NoDup (list_ b).*1 → NoDup (list_ b').*1 ∧ (key ∉ (list_ b').*1)) ∧
  (∀ k x, k ≠ key → find_list k x (list_ b') = find_list k x (list_ b)).
Proof.
  unfold Bucket_Remove.
  destruct (remove_list key (list_ b)) as [l'|] eqn:E; [|discriminate].
  intros [= <-]. simpl.
  destruct (remove_list_Some _ _ _ E) as (Hin & Hsub & Hlen & Hnd & Ho).
  split_and!; try done. lia.
Qed.

Lemma Bucket_Remove_false key b b' :
  Bucket_Remove key b = (false, b') → b' = b ∧ (key ∉ (list_ b).*1).
Proof.
  unfold Bucket_Remove.
  destruct (remove_list key (list_ b)) as [l'|] eqn:E; [discriminate|].
  apply remove_list_None in E. by intros [= <-].
Qed.

Lemma Bucket_Remove_absent key b :
  key ∉ (list_ b).*1 → Bucket_Remove key b = (false, b).
Proof.
  intros Hn. unfold Bucket_Remove.
  by rewrite (proj2 (remove_list_None key _) Hn).
Qed.

(** ** Tables: writing a bucket back *)

Lemma set_heap_id t : set_heap (heap_ t) t = t.
Proof. by destruct t. Qed.

Lemma set_dir_id t : set_dir (dir_ t) t = t.
Proof. by destruct t. Qed.

Lemma store_same l b t :
  heap_ t !! l = Some b → store (Some l) b t = Done (tt, t).
Proof.
  intros Hl. unfold store. rewrite decide_True by by eapply lookup_lt_Some.
  by rewrite list_insert_id, set_heap_id.
Qed.

Lemma IndexOf_Done key t r :
  IndexOf hash key t = Done r ↔
  0 ≤ global_depth_ t < 31 ∧ r = (hash key mod 2 ^ global_depth_ t, t).
Proof.
  unfold IndexOf. split.
  - intros H. run0. rewrite Z.land_ones by lia. done.
  - intros [Hgd ->]. unfold bind, gets, lift, ret, int_mask.
    rewrite decide_True by done.
    change (1 ≪ global_depth_ t - 1) with (Z.pred (1 ≪ global_depth_ t)).
    fold (Z.ones (global_depth_ t)). by rewrite Z.land_ones by lia.
Qed.

(** The same, knowing [IndexOf]. *)
Ltac run_step :=
  first
    [ match goal with
      | H : IndexOf _ _ _ = Done _ |- _ =>
          apply IndexOf_Done in H; destruct H as (? & ?); simplify_eq
      end
    | run0_step ].
Ltac run := repeat (run_step; simpl_table).

Lemma index_range key g : 0 ≤ g → 0 ≤ hash key mod 2 ^ g < 2 ^ g.
Proof. intros Hg. apply Z.mod_pos_bound. by apply Z.pow_pos_nonneg. Qed.

(** ** Tables: the methods that address one bucket *)

Lemma addressed_Done key t l b :
  addressed hash key t l b →
  ∃ index, IndexOf hash key t = Done (index, t) ∧
           load_dir index t = Done (Some l, t) ∧
           deref (Some l) t = Done (b, t).
Proof.
  intros (Hgd & Hd & Hh). eexists. split; [by apply IndexOf_Done|]. split.
  - apply load_dir_Done. eexists. split_and!; [|done..].
    apply index_range. lia.
  - apply deref_Done. eauto.
Qed.

Lemma Done_addressed key t index bucket b :
  IndexOf hash key t = Done (index, t) →
  load_dir index t = Done (bucket, t) →
  deref bucket t = Done (b, t) →
  ∃ l, bucket = Some l ∧ addressed hash key t l b.
Proof.
  intros Hi Hl Hd. apply IndexOf_Done in Hi as [Hgd Hi].
  run. eexists. split; [done|].
  split; [done|]. split; done.
Qed.

Lemma Find_Done key value t r :
  Find hash key value t = Done r ↔
  ∃ l b, addressed hash key t l b ∧ r = (find_list key value (list_ b), t).
Proof.
  unfold Find, call_Find, Bucket_Find. split.
  - intros H. run. eexists _, _. split; [|done]. split; [done|]. by split.
  - intros (l & b & Ha & ->).
    destruct (addressed_Done _ _ _ _ Ha) as (index & Hi & Hl & Hd).
    unfold bind. by rewrite Hi, Hl, Hd.
Qed.

Lemma Remove_Done key t r :
  Remove hash key t = Done r ↔
  ∃ l b, addressed hash key t l b ∧
    r = ((Bucket_Remove key b).1,
         set_heap (<[l := (Bucket_Remove key b).2]> (heap_ t)) t).
Proof.
  unfold Remove, call_Remove. split.
  - intros H. run. eexists _, _. split; [|done]. split; [done|]. by split.
  - intros (l & b & Ha & ->).
    destruct (addressed_Done _ _ _ _ Ha) as (index & Hi & Hl & Hd).
    unfold bind. rewrite Hi, Hl, Hd. unfold store.
    destruct Ha as (_ & _ & Hh). by rewrite decide_True by by eapply lookup_lt_Some.
Qed.

Lemma call_Insert_Done l key value t r :
  call_Insert (Some l) key value t = Done r ↔
  ∃ b, heap_ t !! l = Some b ∧
    r = ((Bucket_Insert key value b).1,
         set_heap (<[l := (Bucket_Insert key value b).2]> (heap_ t)) t).
Proof.
  unfold call_Insert. split.
  - intros H. run. eauto.
  - intros (b & Hb & ->). unfold bind, deref, store, ret. rewrite Hb.
    by rewrite decide_True by by eapply lookup_lt_Some.
Qed.

Lemma call_GetDepth_Done l t r :
  call_GetDepth (Some l) t = Done r ↔
  ∃ b, heap_ t !! l = Some b ∧ r = (depth_ b, t).
Proof.
  unfold call_GetDepth, GetDepth. split.
  - intros H. run. eauto.
  - intros (b & Hb & ->). unfold bind, deref, ret. by rewrite Hb.
Qed.

Lemma call_Insert_null key value t : call_Insert None key value t = Undefined.
Proof. done. Qed.

(** A bucket written back is what its slots now refer to. *)
Lemma addressed_set_heap key t l b b' :
  addressed hash key t l b →
  addressed hash key (set_heap (<[l := b']> (heap_ t)) t) l b'.
Proof.
  intros (Hgd & Hd & Hh). split; [done|]. split; [done|]. simpl.
  apply list_lookup_insert_eq. by eapply lookup_lt_Some.
Qed.

Lemma addressed_inj key t l b l' b' :
  addressed hash key t l b → addressed hash key t l' b' → l = l' ∧ b = b'.
Proof.
  intros (_ & Hd & Hh) (_ & Hd' & Hh'). rewrite Hd in Hd'. simplify_eq. done.
Qed.


(** ** Growing the directory *)

Lemma bind_eq {A B} (m : M A) (f : A → M B) t a t1 :
  m t = Done (a, t1) → bind m f t = f a t1.
Proof. intros Hm. unfold bind. by rewrite Hm. Qed.

Lemma load_dir_eq (i : nat) p t :
  dir_ t !! i = Some p → load_dir (Z.of_nat i) t = Done (p, t).
Proof.
  intros Hi. unfold load_dir. rewrite decide_True by lia.
  by rewrite Nat2Z.id, Hi.
Qed.

Lemma store_dir_eq (i : nat) p t :
  (i < length (dir_ t))%nat →
  store_dir (Z.of_nat i) p t = Done (tt, set_dir (<[i := p]> (dir_ t)) t).
Proof.
  intros Hi. unfold store_dir. rewrite decide_True by lia.
  by rewrite Nat2Z.id.
Qed.

Lemma DoubleDirectory_loop t (d0 pre suf : list ptr) :
  d0 = pre ++ suf →
  for_each (seq (length pre) (length suf))
    (λ i, bind (load_dir (Z.of_nat i))
            (λ p, store_dir (Z.of_nat (i + length d0)) p))
    (set_dir (d0 ++ pre ++ replicate (length suf) None) t)
  = Done (tt, set_dir (d0 ++ pre ++ suf) t).
Proof.
  revert pre. induction suf as [|p suf IH]; intros pre Hd0; [done|].
  simpl length. simpl seq. simpl for_each. simpl replicate.
  erewrite bind_eq; last first.
  { erewrite bind_eq; last first.
    { apply load_dir_eq. simpl. rewrite lookup_app_l.
      - rewrite Hd0. by apply list_lookup_middle.
      - rewrite Hd0, length_app. simpl. lia. }
    apply store_dir_eq. simpl.
    rewrite !length_app. simpl. rewrite length_replicate. lia. }
  simpl. rewrite (Nat.add_comm (length pre)).
  rewrite insert_app_r, insert_app_r_alt, Nat.sub_diag by lia. simpl.
  specialize (IH (pre ++ [p])). rewrite length_app in IH. simpl in IH.
  rewrite Nat.add_1_r, <-!(assoc_L (++)) in IH. simpl in IH.
  apply IH. by rewrite Hd0.
Qed.

Lemma DoubleDirectory_Done t :
  DoubleDirectory t = Done (tt, set_dir (dir_ t ++ dir_ t) t).
Proof.
  unfold DoubleDirectory, bind at 1, gets. unfold bind at 1, modify.
  apply (DoubleDirectory_loop t (dir_ t) [] (dir_ t)). done.
Qed.

(** ** Splitting a bucket *)

(** The loop over the directory. *)
Lemma SplitBucket_dir_loop t (bucket new_bucket new_bucket2 : ptr)
    (step1 step : Z) (pre suf : list ptr) :
  for_each (seq (length pre) (length suf))
    (λ i, bind (load_dir (Z.of_nat i)) (λ p,
       if decide (Z.land (Z.of_nat i) step1 ≠ step ∧ p = bucket) then
         store_dir (Z.of_nat i) new_bucket
       else if decide (Z.land (Z.of_nat i) step1 = step ∧ p = bucket) then
         store_dir (Z.of_nat i) new_bucket2
       else ret tt))
    (set_dir (pre ++ suf) t)
  = Done (tt, set_dir (pre ++ imap (λ j p,
       if decide (Z.land (Z.of_nat (length pre + j)) step1 ≠ step ∧ p = bucket)
       then new_bucket
       else if decide (Z.land (Z.of_nat (length pre + j)) step1 = step ∧ p = bucket)
       then new_bucket2 else p) suf) t).
Proof.
  revert pre. induction suf as [|p suf IH]; intros pre; [done|].
  simpl length. simpl seq. simpl for_each.
  rewrite imap_cons, Nat.add_0_r.
  match goal with
  | |- context [Done (tt, set_dir (pre ++ ?y :: _) t)] => set (x := y)
  end.
  erewrite bind_eq with (t1 := set_dir (pre ++ x :: suf) t); last first.
  { erewrite bind_eq; [|apply load_dir_eq; simpl; by apply list_lookup_middle].
    assert (∀ q, store_dir (Z.of_nat (length pre)) q (set_dir (pre ++ p :: suf) t)
                 = Done (tt, set_dir (pre ++ q :: suf) t)) as Hstore.
    { intros q. rewrite store_dir_eq by (simpl; rewrite length_app; simpl; lia).
      simpl. by rewrite insert_app_r_alt, Nat.sub_diag by lia. }
    subst x. repeat case_decide; rewrite ?Hstore; done. }
  specialize (IH (pre ++ [x])). rewrite length_app in IH. simpl in IH.
  rewrite Nat.add_1_r, <-!(assoc_L (++)) in IH. simpl in IH.
  rewrite IH. do 3 f_equal. f_equal. f_equal. apply imap_ext. intros j q _. simpl.
  by replace (S (length pre + j))%nat with (length pre + S j)%nat by lia.
Qed.

(** The loop over the entries of the split bucket: each goes to the end
    of one of the two fresh buckets, which have room for all of them. *)
Lemma SplitBucket_items_loop (new_bucket new_bucket2 : loc) (step1 step : Z)
    (items : list (K * V)) : ∀ t (b1 b2 : Bucket),
  new_bucket ≠ new_bucket2 →
  heap_ t !! new_bucket = Some b1 →
  heap_ t !! new_bucket2 = Some b2 →
  NoDup items.*1 →
  (∀ k, k ∈ items.*1 → (k ∉ (list_ b1).*1) ∧ (k ∉ (list_ b2).*1)) →
  (length (list_ b1) + length items ≤ size_ b1)%nat →
  (length (list_ b2) + length items ≤ size_ b2)%nat →
  ∃ h,
    for_each items (λ item,
      if decide (Z.land step1 (hash item.1) ≠ step) then
        bind (call_Insert (Some new_bucket) item.1 item.2) (λ _, ret tt)
      else
        bind (call_Insert (Some new_bucket2) item.1 item.2) (λ _, ret tt)) t
    = Done (tt, set_heap h t) ∧
    length h = length (heap_ t) ∧
    h !! new_bucket = Some (mkBucket (size_ b1) (depth_ b1)
      (list_ b1 ++ filter (λ kv, Z.land step1 (hash kv.1) ≠ step) items)) ∧
    h !! new_bucket2 = Some (mkBucket (size_ b2) (depth_ b2)
      (list_ b2 ++ filter (λ kv, Z.land step1 (hash kv.1) = step) items)) ∧
    ∀ l, l ≠ new_bucket → l ≠ new_bucket2 → h !! l = heap_ t !! l.
Proof.
  induction items as [|[k v] items IH]; intros t b1 b2 Hne H1 H2 Hnd Hfresh Hl1 Hl2.
  { exists (heap_ t). simpl. rewrite set_heap_id, !app_nil_r.
    split_and!; try done; [by destruct b1|by destruct b2]. }
  simpl in Hnd, Hl1, Hl2. apply NoDup_cons in Hnd as [Hk Hnd].
  destruct (Hfresh k) as [Hk1 Hk2]; [simpl; apply list_elem_of_here|].
  assert (Hnk : ∀ k', k' ∈ items.*1 → k' ≠ k) by (intros k' Hk' ->; done).
  simpl for_each. cbn [fst snd]. case_decide as Hside.
  - erewrite bind_eq; last first.
    { erewrite bind_eq;
        [|apply call_Insert_Done; eexists; split; [exact H1|reflexivity]].
      rewrite Bucket_Insert_fresh by (done || lia). reflexivity. }
    cbn [fst snd].
    set (b1' := mkBucket (size_ b1) (depth_ b1) (list_ b1 ++ [(k, v)])).
    set (t1 := set_heap (<[new_bucket := b1']> (heap_ t)) t).
    assert (heap_ t1 !! new_bucket = Some b1') as H1'.
    { simpl. apply list_lookup_insert_eq. by eapply lookup_lt_Some. }
    assert (heap_ t1 !! new_bucket2 = Some b2) as H2'.
    { simpl. by rewrite list_lookup_insert_ne. }
    assert (∀ k', k' ∈ items.*1 →
              (k' ∉ (list_ b1').*1) ∧ (k' ∉ (list_ b2).*1)) as Hfresh'.
    { intros k' Hk'. destruct (Hfresh k') as [Hk'1 Hk'2].
      { simpl. by apply list_elem_of_further. }
      split; [|done]. simpl. rewrite fmap_app, elem_of_app. simpl.
      rewrite elem_of_cons. intros [?|[->|[]%elem_of_nil]]; [done|].
      by eapply Hnk. }
    assert (length (list_ b1') + length items ≤ size_ b1')%nat as Hl1'.
    { simpl. rewrite length_app. simpl. lia. }
    assert (length (list_ b2) + length items ≤ size_ b2)%nat as Hl2' by lia.
    destruct (IH t1 b1' b2 Hne H1' H2' Hnd Hfresh' Hl1' Hl2')
      as (h & Hrun & Hlen & Hh1 & Hh2 & Hoth).
    exists h. rewrite Hrun. simpl in *. rewrite length_insert in Hlen.
    split_and!; try done.
    + rewrite Hh1, filter_cons_True by done. by rewrite <-(assoc_L (++)).
    + rewrite Hh2, filter_cons_False by (simpl; tauto). done.
    + intros l ? ?. rewrite Hoth by done. by rewrite list_lookup_insert_ne.
  - erewrite bind_eq; last first.
    { erewrite bind_eq;
        [|apply call_Insert_Done; eexists; split; [exact H2|reflexivity]].
      rewrite Bucket_Insert_fresh by (done || lia). reflexivity. }
    cbn [fst snd].
    set (b2' := mkBucket (size_ b2) (depth_ b2) (list_ b2 ++ [(k, v)])).
    set (t1 := set_heap (<[new_bucket2 := b2']> (heap_ t)) t).
    assert (heap_ t1 !! new_bucket = Some b1) as H1'.
    { simpl. by rewrite list_lookup_insert_ne. }
    assert (heap_ t1 !! new_bucket2 = Some b2') as H2'.
    { simpl. apply list_lookup_insert_eq. by eapply lookup_lt_Some. }
    assert (∀ k', k' ∈ items.*1 →
              (k' ∉ (list_ b1).*1) ∧ (k' ∉ (list_ b2').*1)) as Hfresh'.
    { intros k' Hk'. destruct (Hfresh k') as [Hk'1 Hk'2].
      { simpl. by apply list_elem_of_further. }
      split; [done|]. simpl. rewrite fmap_app, elem_of_app. simpl.
      rewrite elem_of_cons. intros [?|[->|[]%elem_of_nil]]; [done|].
      by eapply Hnk. }
    assert (length (list_ b1) + length items ≤ size_ b1)%nat as Hl1' by lia.
    assert (length (list_ b2') + length items ≤ size_ b2')%nat as Hl2'.
    { simpl. rewrite length_app. simpl. lia. }
    destruct (IH t1 b1 b2' Hne H1' H2' Hnd Hfresh' Hl1' Hl2')
      as (h & Hrun & Hlen & Hh1 & Hh2 & Hoth).
    exists h. rewrite Hrun. simpl in *. rewrite length_insert in Hlen.
    split_and!; try done.
    + rewrite Hh1, filter_cons_False by (simpl; intros ?; done). done.
    + rewrite Hh2, filter_cons_True by done.
      by rewrite <-(assoc_L (++)).
    + intros l ? ?. rewrite Hoth by done. by rewrite list_lookup_insert_ne.
Qed.

Lemma land_ones_low d x y :
  0 ≤ d → Z.land x (Z.ones d) = Z.land (Z.ones d) y ↔ same_low d x y.
Proof.
  intros Hd. unfold same_low.
  by rewrite (Z.land_comm (Z.ones d)), !Z.land_ones by done.
Qed.

Lemma SplitBucket_Done key t t' l b :
  SplitBucket hash key t = Done (tt, t') →
  addressed hash key t l b →
  NoDup (list_ b).*1 →
  (length (list_ b) ≤ bucket_size_ t)%nat →
  let d := depth_ b + 1 in
  let index := hash key mod 2 ^ global_depth_ t in
  let n := length (heap_ t) in
  0 ≤ d < 31 ∧
  global_depth_ t' = global_depth_ t ∧
  bucket_size_ t' = bucket_size_ t ∧
  num_buckets_ t' = num_buckets_ t + 1 ∧
  dir_ t' = imap (split_slot l n d index) (dir_ t) ∧
  length (heap_ t') = S (S n) ∧
  heap_ t' !! l = Some (mkBucket (size_ b) d (list_ b)) ∧
  heap_ t' !! n = Some (mkBucket (bucket_size_ t) d
    (filter (λ kv, ¬ same_low d (hash kv.1) index) (list_ b))) ∧
  heap_ t' !! S n = Some (mkBucket (bucket_size_ t) d
    (filter (λ kv, same_low d (hash kv.1) index) (list_ b))) ∧
  ∀ l', l' ≠ l → (l' < n)%nat → heap_ t' !! l' = heap_ t !! l'.
Proof.
  intros H Ha Hnd Hlen.
  unfold SplitBucket, call_IncrementDepth, call_GetDepth, call_GetItems,
    GetDepth, GetItems in H.
  run. destruct Ha as (Hgd & Hdir & Hheap).
  match goal with
  | H : dir_ t !! _ = Some (Some ?x) |- _ =>
      assert (x = l) by congruence; subst x; clear H
  end.
  match goal with
  | H : heap_ t !! l = Some ?x |- _ =>
      assert (x = b) by congruence; subst x; clear H
  end.
  assert (l < length (heap_ t))%nat as Hl by by eapply lookup_lt_Some.
  assert (∀ (h : list Bucket) x y, (l < length h)%nat →
            <[l := x]> h !! l = Some y → y = x) as Hsame.
  { intros h x y ? Hy. rewrite list_lookup_insert_eq in Hy by done. congruence. }
  repeat match goal with
  | H : (_ ++ _) !! l = Some _ |- _ =>
      rewrite lookup_app_l in H by (rewrite ?length_app, length_insert; lia)
  | H : <[l := _]> _ !! l = Some _ |- _ =>
      apply Hsame in H; [subst|done]
  end.
  simpl_table. rewrite ?length_app, ?length_insert in *. simpl length in *.
  rewrite Nat.add_1_r in *.
  (* the directory loop *)
  match goal with
  | H : for_each (seq 0 _) _ ?t0 = Done _ |- _ =>
      pose proof (eq_trans (eq_sym H)
        (SplitBucket_dir_loop t0 _ _ _ _ _ [] (dir_ t))) as Hloop; clear H
  end.
  simplify_eq. simpl_table.
  repeat match goal with
  | H : (_ ++ _) !! l = Some _ |- _ =>
      rewrite lookup_app_l in H by (rewrite ?length_app, length_insert; lia)
  | H : <[l := _]> _ !! l = Some _ |- _ =>
      apply Hsame in H; [subst|done]
  end.
  simpl_table.
  set (d := depth_ b + 1) in *.
  set (index := hash key mod 2 ^ global_depth_ t) in *.
  set (n := length (heap_ t)) in *.
  (* the loop over the entries *)
  match goal with
  | H : for_each (list_ b) _ ?t0 = Done _ |- _ =>
      destruct (SplitBucket_items_loop n (S n)
                  (Z.ones d) (Z.land (Z.ones d) index) (list_ b) t0
                  (Bucket_new (bucket_size_ t) d) (Bucket_new (bucket_size_ t) d))
        as (h & Hrun & Hlenh & Hh1 & Hh2 & Hoth);
      [lia| | |done|intros; simpl; split; apply not_elem_of_nil
      |simpl; lia|simpl; lia|rewrite Hrun in H]
  end.
  { simpl. rewrite <-(assoc_L (++)). apply list_lookup_middle.
    by rewrite length_insert. }
  { simpl. apply list_lookup_middle.
    rewrite length_app, length_insert. simpl. lia. }
  simplify_eq. simpl in Hlenh, Hoth.
  rewrite !length_app, length_insert in Hlenh. simpl in Hlenh. fold n in Hlenh.
  simpl_table. split_and!; try done; try lia.
  - apply imap_ext. intros i p _. unfold split_slot.
    pose proof (land_ones_low d (Z.of_nat i) index ltac:(lia)) as Hiff.
    repeat case_decide; naive_solver.
  - rewrite Hoth by lia. rewrite !lookup_app_l by
      (rewrite ?length_app, length_insert; lia).
    by apply list_lookup_insert_eq.
  - rewrite Hh1. simpl. do 2 f_equal. apply list_filter_iff.
    intros [k v]. simpl.
    by rewrite (Z.land_comm (Z.ones d) (hash k)), land_ones_low by lia.
  - rewrite Hh2. simpl. do 2 f_equal. apply list_filter_iff.
    intros [k v]. simpl.
    by rewrite (Z.land_comm (Z.ones d) (hash k)), land_ones_low by lia.
  - intros l' Hne Hlt. rewrite Hoth by lia.
    rewrite !lookup_app_l by (rewrite ?length_app, length_insert; lia).
    by apply list_lookup_insert_ne.
Qed.

(** ** Agreement on low bits *)

Lemma pow2_pos d : 0 ≤ d → 0 < 2 ^ d.
Proof. intros. by apply Z.pow_pos_nonneg. Qed.

Lemma mod_mod_pow2 x d g : 0 ≤ d ≤ g → (x mod 2 ^ g) mod 2 ^ d = x mod 2 ^ d.
Proof.
  intros Hd. apply Z.mod_mod_divide.
  exists (2 ^ (g - d)). rewrite <-Z.pow_add_r by lia. f_equal. lia.
Qed.

Lemma same_low_refl d x : same_low d x x.
Proof. done. Qed.

Lemma same_low_sym d x y : same_low d x y → same_low d y x.
Proof. unfold same_low. congruence. Qed.

Lemma same_low_trans d x y z : same_low d x y → same_low d y z → same_low d x z.
Proof. unfold same_low. congruence. Qed.

Lemma same_low_le d g x y : 0 ≤ d ≤ g → same_low g x y → same_low d x y.
Proof.
  unfold same_low. intros Hd Hg.
  by rewrite <-(mod_mod_pow2 x d g), <-(mod_mod_pow2 y d g), Hg by done.
Qed.

Lemma same_low_mod d g x : 0 ≤ d ≤ g → same_low d (x mod 2 ^ g) x.
Proof. intros Hd. unfold same_low. by apply mod_mod_pow2. Qed.

Lemma mod_pow2_succ x d :
  0 ≤ d → x mod 2 ^ (d + 1) = x mod 2 ^ d + 2 ^ d * ((x / 2 ^ d) mod 2).
Proof.
  intros Hd. rewrite Z.pow_add_r, Z.pow_1_r by lia.
  apply Z.rem_mul_r; [|lia]. pose proof (pow2_pos d Hd). lia.
Qed.

(** One more bit splits a class in two: two numbers of the class that
    both leave the half of [z] are in the same half. *)
Lemma same_low_other_half d x y z :
  0 ≤ d → same_low d x z → same_low d y z →
  ¬ same_low (d + 1) x z → ¬ same_low (d + 1) y z →
  same_low (d + 1) x y.
Proof.
  unfold same_low. intros Hd Hx Hy. rewrite !mod_pow2_succ by done.
  rewrite Hx, Hy.
  pose proof (Z.mod_pos_bound (x / 2 ^ d) 2 eq_refl).
  pose proof (Z.mod_pos_bound (y / 2 ^ d) 2 eq_refl).
  pose proof (Z.mod_pos_bound (z / 2 ^ d) 2 eq_refl).
  assert ((x / 2 ^ d) mod 2 = 0 ∨ (x / 2 ^ d) mod 2 = 1) as [->| ->] by lia;
  assert ((y / 2 ^ d) mod 2 = 0 ∨ (y / 2 ^ d) mod 2 = 1) as [->| ->] by lia;
  assert ((z / 2 ^ d) mod 2 = 0 ∨ (z / 2 ^ d) mod 2 = 1) as [->| ->] by lia;
  intros; done.
Qed.

Lemma lookup_double {A} (d : list A) (j : nat) :
  (j < 2 * length d)%nat → (d ++ d) !! j = d !! (j mod length d)%nat.
Proof.
  intros Hj. destruct (decide (j < length d)%nat) as [Hlt|Hge].
  - rewrite lookup_app_l by done. by rewrite Nat.mod_small.
  - rewrite lookup_app_r by lia. f_equal.
    rewrite <-(Nat.mod_small (j - length d) (length d)) by lia.
    replace j with (j - length d + 1 * length d)%nat at 2 by lia.
    by rewrite Nat.Div0.mod_add.
Qed.

(** ** The invariant is kept *)

Lemma same_low_mod_nat d g (n j : nat) :
  Z.of_nat n = 2 ^ g → 0 ≤ d ≤ g →
  same_low d (Z.of_nat (j mod n)) (Z.of_nat j).
Proof.
  intros Hn Hd. rewrite Nat2Z.inj_mod, Hn. by apply same_low_mod.
Qed.

Lemma NoDup_keys_filter (P : K * V → Prop) `{∀ x, Decision (P x)}
    (l : list (K * V)) :
  NoDup l.*1 → NoDup (filter P l).*1.
Proof.
  intros Hnd. eapply sublist_NoDup; [exact Hnd|].
  apply fmap_sublist, sublist_filter.
Qed.

Lemma Inv_lookup t i p :
  Inv hash t → dir_ t !! i = Some p →
  ∃ l b, p = Some l ∧ slot t i l b ∧ bucket_ok hash t i l b ∧
         (l < length (heap_ t))%nat.
Proof.
  intros [_ _ Hs] Hi. destruct (Hs i p Hi) as (l & b & -> & Hb & Hok).
  exists l, b. split_and!; try done. by eapply lookup_lt_Some.
Qed.

Lemma bucket_ok_set_heap t h i l b :
  bucket_ok hash t i l b → bucket_ok hash (set_heap h t) i l b.
Proof. intros []. by split. Qed.

(** Writing back a bucket that kept its capacity and depth, respects the
    capacity and holds distinct keys of the right hash. *)
Lemma update_bucket_Inv t l b b' :
  Inv hash t → heap_ t !! l = Some b →
  size_ b' = size_ b → depth_ b' = depth_ b →
  (length (list_ b') ≤ size_ b)%nat → NoDup (list_ b').*1 →
  (∀ i k, dir_ t !! i = Some (Some l) → k ∈ (list_ b').*1 →
          same_low (depth_ b) (hash k) (Z.of_nat i)) →
  Inv hash (set_heap (<[l := b']> (heap_ t)) t).
Proof.
  intros [Hd Hlen Hs] Hl Hsz Hdp Hle Hnd Hk. split; simpl; [done..|].
  intros i p Hi. destruct (Hs i p Hi) as (l0 & b0 & -> & Hb0 & Hok).
  destruct (decide (l0 = l)) as [->|Hne].
  - exists l, b'. split; [done|]. split.
    + apply list_lookup_insert_eq. by eapply lookup_lt_Some.
    + assert (b0 = b) as -> by congruence.
      destruct Hok. split; simpl; rewrite ?Hsz, ?Hdp; try done.
      intros k Hin. by apply Hk.
  - exists l0, b0. split; [done|].
    split; [by rewrite list_lookup_insert_ne|]. by apply bucket_ok_set_heap.
Qed.

Lemma grown_Inv t : Inv hash t → Inv hash (grown t).
Proof.
  intros HI. pose proof HI as [Hd Hlen Hs].
  assert (0 < 2 ^ global_depth_ t) as Hpos by by apply pow2_pos.
  split; simpl.
  - lia.
  - rewrite length_app, Z.pow_add_r, Z.pow_1_r by lia. lia.
  - intros i p Hi.
    assert (i < 2 * length (dir_ t))%nat as Hlt.
    { apply lookup_lt_Some in Hi. rewrite length_app in Hi. lia. }
    rewrite lookup_double in Hi by done.
    destruct (Hs _ p Hi) as (l & b & -> & Hb & Hok).
    exists l, b. split; [done|]. split; [done|].
    destruct Hok as [Hdep Hsz Hle Hnd Hsl Hk]. split; simpl; try done.
    + lia.
    + intros j Hj. rewrite length_app in Hj.
      rewrite lookup_double by lia. rewrite Hsl by (apply Nat.mod_upper_bound; lia).
      pose proof (same_low_mod_nat (depth_ b) _ _ j Hlen Hdep).
      pose proof (same_low_mod_nat (depth_ b) _ _ i Hlen Hdep).
      split; intros; eauto using same_low_trans, same_low_sym.
    + intros k Hin.
      pose proof (same_low_mod_nat (depth_ b) _ _ i Hlen Hdep).
      eauto using same_low_trans.
Qed.

Lemma SplitBucket_Inv key t t' l b :
  Inv hash t → addressed hash key t l b → depth_ b < global_depth_ t →
  SplitBucket hash key t = Done (tt, t') → Inv hash t'.
Proof.
  intros HI Ha Hlt Hrun. pose proof HI as [Hd Hlen Hs].
  pose proof Ha as (Hgd & Hdir & Hheap).
  set (index := hash key mod 2 ^ global_depth_ t) in *.
  destruct (Hs _ _ Hdir) as (? & ? & [= <-] & Hb & Hokb).
  assert (x0 = b) as -> by congruence. clear Hb.
  pose proof Hokb as [Hdep Hsz Hle Hnd Hsl Hk].
  destruct (SplitBucket_Done key t t' l b Hrun Ha Hnd)
    as (Hd' & Eg & Es & En & Edir & Elen & El & Elo & Ehi & Eoth); [lia|].
  fold index in Edir, Elo, Ehi.
  set (d := depth_ b + 1) in *. set (n := length (heap_ t)) in *.
  assert (Z.to_nat index < length (dir_ t))%nat as Hidx
    by by eapply lookup_lt_Some.
  assert (0 ≤ index) as Hidx0 by (apply index_range; lia).
  assert (∀ i, dir_ t !! i = Some (Some l) →
               same_low (depth_ b) (Z.of_nat i) index) as Hcls.
  { intros i Hi. pose proof (lookup_lt_Some _ _ _ Hi) as Hil.
    apply (Hsl i Hil) in Hi. by rewrite Z2Nat.id in Hi. }
  assert (∀ j, (j < length (dir_ t))%nat →
               same_low (depth_ b) (Z.of_nat j) index →
               dir_ t !! j = Some (Some l)) as Hcls'.
  { intros j Hj Hjl. apply (Hsl j Hj). by rewrite Z2Nat.id. }
  split; rewrite ?Eg, ?Edir, ?length_imap; [done..|].
  intros i p' Hi. rewrite list_lookup_imap in Hi.
  destruct (dir_ t !! i) as [p|] eqn:Hp; [|done]. simpl in Hi. simplify_eq.
  destruct (Inv_lookup _ _ _ HI Hp) as (l0 & b0 & -> & [_ Hb0] & Hok0 & Hl0).
  unfold split_slot at 1. destruct (decide (Some l0 = Some l)) as [[= ->]|Hne].
  - assert (b0 = b) as -> by congruence.
    pose proof (Hcls _ Hp) as Hi_cls.
    case_decide as Hside.
    + (* the half of the inserted key *)
      eexists _, _. split; [done|]. split; [exact Ehi|].
      split; simpl; rewrite ?Eg, ?Es, ?Edir, ?length_imap.
      * lia.
      * done.
      * etrans; [apply length_filter|]. lia.
      * by apply NoDup_keys_filter.
      * intros j Hj. rewrite list_lookup_imap.
        destruct (lookup_lt_is_Some_2 _ _ Hj) as [q Hq]. rewrite Hq. simpl.
        destruct (Inv_lookup _ _ _ HI Hq) as (lq & bq & -> & _ & _ & Hlq).
        unfold split_slot. fold n in Hlq. case_decide as Hq'.
        -- simplify_eq. pose proof (Hcls _ Hq) as Hj_cls. case_decide.
           ++ split; [|done]. intros _.
              eauto using same_low_trans, same_low_sym.
           ++ split; [intros [=]; lia|]. intros Hji.
              exfalso. eauto using same_low_trans, same_low_sym.
        -- split; [intros [=]; lia|]. intros Hji. exfalso. apply Hq'.
           assert (dir_ t !! j = Some (Some l)) as Hjl; [|congruence].
           apply (Hcls' j Hj).
           apply (same_low_trans _ _ (Z.of_nat i)); [|done].
           apply (same_low_le _ d); [lia|done].
      * intros k ([k' v] & -> & [Hkk _]%list_elem_of_filter)%list_elem_of_fmap.
        simpl in *. eauto using same_low_trans, same_low_sym.
    + (* the other half *)
      eexists _, _. split; [done|]. split; [exact Elo|].
      split; simpl; rewrite ?Eg, ?Es, ?Edir, ?length_imap.
      * lia.
      * done.
      * etrans; [apply length_filter|]. lia.
      * by apply NoDup_keys_filter.
      * intros j Hj. rewrite list_lookup_imap.
        destruct (lookup_lt_is_Some_2 _ _ Hj) as [q Hq]. rewrite Hq. simpl.
        destruct (Inv_lookup _ _ _ HI Hq) as (lq & bq & -> & _ & _ & Hlq).
        unfold split_slot. fold n in Hlq. case_decide as Hq'.
        -- simplify_eq. pose proof (Hcls _ Hq) as Hj_cls. case_decide.
           ++ split; [intros [=]; lia|]. intros Hji.
              exfalso. apply Hside. eauto using same_low_trans, same_low_sym.
           ++ split; [|done]. intros _.
              apply (same_low_other_half _ _ _ index); [lia|done..].
        -- split; [intros [=]; lia|]. intros Hji. exfalso. apply Hq'.
           assert (dir_ t !! j = Some (Some l)) as Hjl; [|congruence].
           apply (Hcls' j Hj).
           apply (same_low_trans _ _ (Z.of_nat i)); [|done].
           apply (same_low_le _ d); [lia|done].
      * intros k ([k' v] & -> & [Hkk Hin]%list_elem_of_filter)%list_elem_of_fmap.
        simpl in *.
        apply (same_low_other_half _ _ _ index); [lia| |done..].
        assert (k' ∈ (list_ b).*1) as Hin'
          by (apply list_elem_of_fmap; by exists (k', v)).
        apply Hk in Hin'. by rewrite Z2Nat.id in Hin'.
  - assert (l0 ≠ l) as Hne' by congruence. fold n in Hl0.
    exists l0, b0. split; [done|]. split; [by rewrite Eoth|].
    destruct Hok0 as [Hdep0 Hsz0 Hle0 Hnd0 Hsl0 Hk0].
    split; simpl; rewrite ?Eg, ?Es, ?Edir, ?length_imap; try done.
    intros j Hj. rewrite list_lookup_imap. rewrite <-(Hsl0 j Hj).
    destruct (lookup_lt_is_Some_2 _ _ Hj) as [q Hq]. rewrite Hq. simpl.
    unfold split_slot. repeat case_decide; simplify_eq; naive_solver lia.
Qed.

Lemma addressed_grown key t l b :
  Inv hash t → addressed hash key t l b → global_depth_ t + 1 < 31 →
  addressed hash key (grown t) l b.
Proof.
  intros [Hd Hlen _] (Hgd & Hdir & Hheap) Hlt.
  split; [simpl; lia|]. split; [|done]. simpl.
  pose proof (pow2_pos _ Hd) as Hpos.
  pose proof (index_range key (global_depth_ t + 1) ltac:(lia)) as Hr.
  set (index' := hash key mod 2 ^ (global_depth_ t + 1)) in *.
  assert (2 ^ (global_depth_ t + 1) = 2 * 2 ^ global_depth_ t) as Hpow
    by (rewrite Z.pow_add_r, Z.pow_1_r by lia; lia).
  rewrite lookup_double by lia. rewrite <-Hdir. f_equal.
  apply Nat2Z.inj. rewrite Nat2Z.inj_mod, Hlen, !Z2Nat.id.
  - apply mod_mod_pow2. lia.
  - apply index_range. lia.
  - lia.
Qed.

(** The loop of [Insert], seen through a property [P] of tables that
    growing the directory and splitting the addressed bucket keep, and a
    property [Q] that writing the pair into the addressed bucket, which
    ends the loop, establishes. *)
Lemma Insert_loop_keeps (P Q : Table → Prop) key value :
  (∀ t, P t → Inv hash t) →
  (∀ t l b b', P t → addressed hash key t l b →
     Bucket_Insert key value b = (true, b') →
     Q (set_heap (<[l := b']> (heap_ t)) t)) →
  (∀ t l b, P t → addressed hash key t l b →
     Bucket_Insert key value b = (false, b) →
     depth_ b = global_depth_ t → global_depth_ t + 1 < 31 → P (grown t)) →
  (∀ t t' l b, P t → addressed hash key t l b →
     Bucket_Insert key value b = (false, b) →
     depth_ b < global_depth_ t →
     SplitBucket hash key t = Done (tt, t') → P t') →
  ∀ fuel t bucket index t',
    P t →
    IndexOf hash key t = Done (index, t) →
    load_dir index t = Done (bucket, t) →
    Insert_loop hash fuel key value bucket t = Done (tt, t') →
    Q t' ∧ 0 ≤ global_depth_ t' < 31.
Proof.
  intros HPI Hins Hgrow Hsplit.
  induction fuel as [|fuel IH]; intros t bucket index t' HP Hi Hl H;
    [discriminate|].
  pose proof (HPI _ HP) as HI.
  assert (∃ l b, bucket = Some l ∧ addressed hash key t l b) as (l & b & -> & Ha).
  { run. destruct (Inv_lookup _ _ _ HI ltac:(eassumption))
      as (l & b & -> & Hs & _). exists l, b. split; [done|]. by split. }
  clear Hi Hl. pose proof Ha as (Hgd & Hdir & Hheap).
  simpl in H. apply bind_Done in H as (ok & t1 & Hcall & H).
  apply call_Insert_Done in Hcall as (b0 & Hb0 & [= -> ->]).
  assert (b0 = b) as -> by congruence.
  destruct (Bucket_Insert key value b) as [[] b'] eqn:E; simpl in H.
  { run. split; [|done]. by eapply Hins. }
  apply Bucket_Insert_false in E as HE. destruct HE as (-> & Hnin & Hfull).
  rewrite list_insert_id, set_heap_id in H by done.
  apply bind_Done in H as (gd & t0 & Hg & H).
  apply gets_Done in Hg. injection Hg as -> ->.
  apply bind_Done in H as (d & t1 & Hd & H).
  apply call_GetDepth_Done in Hd as (b0 & Hb0' & [= -> ->]).
  assert (b0 = b) as -> by congruence.
  apply bind_Done in H as ([] & t2 & Hgrown & H).
  apply bind_Done in H as ([] & t3 & Hsp & H).
  apply bind_Done in H as (index' & t4 & Hi' & H).
  apply bind_Done in H as (bucket' & t5 & Hl' & H).
  assert (t4 = t3) as ->.
  { apply IndexOf_Done in Hi' as [_ Hi']. congruence. }
  assert (t5 = t3) as ->.
  { apply load_dir_Done in Hl' as (? & _ & _ & Hl'). congruence. }
  assert (0 ≤ global_depth_ t2 < 31) as Hgd2.
  { unfold SplitBucket in Hsp. apply bind_Done in Hsp as (? & ? & Hii & _).
    by run. }
  eapply (IH t3); [|exact Hi'|exact Hl'|exact H].
  case_decide as Hdec.
  - assert (t2 = grown t) as ->.
    { run. rewrite DoubleDirectory_Done in *. by simplify_eq. }
    simpl in Hgd2.
    eapply (Hsplit (grown t)); [| |done| |done].
    + eapply Hgrow; [done..|lia].
    + apply addressed_grown; [done..|lia].
    + simpl. lia.
  - apply ret_Done in Hgrown. injection Hgrown as ->.
    eapply (Hsplit t); [done|exact Ha|done| |done].
    destruct (Inv_lookup _ _ _ HI Hdir) as (? & b1 & [= <-] & [_ Hb] & Hok & _).
    assert (b1 = b) as -> by congruence. destruct Hok. lia.
Qed.

(** The slots of the bucket addressed by [key] agree with the hash of
    [key] on the bucket's depth. *)
Lemma addressed_class key t l b i :
  Inv hash t → addressed hash key t l b → dir_ t !! i = Some (Some l) →
  same_low (depth_ b) (hash key) (Z.of_nat i).
Proof.
  intros HI (Hgd & Hdir & Hheap) Hi.
  destruct (Inv_lookup _ _ _ HI Hi) as (? & b1 & [= <-] & [_ Hb] & Hok & _).
  assert (b1 = b) as -> by congruence.
  destruct Hok as [Hdep _ _ _ Hsl _].
  apply (Hsl _ (lookup_lt_Some _ _ _ Hdir)) in Hdir.
  rewrite Z2Nat.id in Hdir by (apply index_range; lia).
  eapply same_low_trans; [|exact Hdir].
  apply same_low_sym, same_low_mod. lia.
Qed.

Lemma slot_bucket_ok t i l b :
  Inv hash t → slot t i l b → bucket_ok hash t i l b.
Proof.
  intros HI [Hi Hb].
  destruct (Inv_lookup _ _ _ HI Hi) as (? & b1 & [= <-] & [_ Hb1] & Hok & _).
  by assert (b1 = b) as -> by congruence.
Qed.

Lemma Bucket_Insert_Inv key value t l b b' :
  Inv hash t → addressed hash key t l b →
  Bucket_Insert key value b = (true, b') →
  Inv hash (set_heap (<[l := b']> (heap_ t)) t).
Proof.
  intros HI Ha E. pose proof Ha as (Hgd & Hdir & Hheap).
  pose proof (slot_bucket_ok _ _ _ _ HI (conj Hdir Hheap)) as Hok.
  destruct (Bucket_Insert_true _ _ _ _ E) as (Hsz & Hdp & _ & _ & Hkeys & Hnd & Hle).
  eapply update_bucket_Inv; try done.
  - apply Hle, Hok.
  - apply Hnd, Hok.
  - intros i k Hi [->|Hin]%Hkeys.
    + by eapply addressed_class.
    + by apply (slot_bucket_ok _ _ _ _ HI (conj Hi Hheap)).
Qed.

Lemma Bucket_Remove_Inv key t l b :
  Inv hash t → addressed hash key t l b →
  Inv hash (set_heap (<[l := (Bucket_Remove key b).2]> (heap_ t)) t).
Proof.
  intros HI Ha. pose proof Ha as (Hgd & Hdir & Hheap).
  pose proof (slot_bucket_ok _ _ _ _ HI (conj Hdir Hheap)) as Hok.
  destruct (Bucket_Remove key b) as [[] b'] eqn:E; simpl.
  - destruct (Bucket_Remove_true _ _ _ E)
      as (Hsz & Hdp & _ & Hsub & Hle & Hnd & _).
    eapply update_bucket_Inv; try done.
    + etrans; [exact Hle|]. apply Hok.
    + apply Hnd, Hok.
    + intros i k Hi Hin.
      apply (slot_bucket_ok _ _ _ _ HI (conj Hi Hheap)). by apply Hsub.
  - apply Bucket_Remove_false in E as [-> _].
    by rewrite list_insert_id, set_heap_id.
Qed.

Lemma new_table_Inv bucket_size : Inv hash (new_table bucket_size : Table).
Proof.
  split; simpl; [done..|].
  intros [|i] p Hi; [|done]. simpl in Hi. simplify_eq.
  eexists _, _. split; [done|]. split; [done|].
  split; simpl; try done.
  - lia.
  - apply NoDup_nil_2.
  - intros j Hj. assert (j = 0%nat) as -> by lia. done.
  - intros k []%elem_of_nil.
Qed.

Lemma Insert_keeps (P Q : Table → Prop) fuel key value t t' :
  (∀ t, P t → Inv hash t) →
  (∀ t l b b', P t → addressed hash key t l b →
     Bucket_Insert key value b = (true, b') →
     Q (set_heap (<[l := b']> (heap_ t)) t)) →
  (∀ t l b, P t → addressed hash key t l b →
     Bucket_Insert key value b = (false, b) →
     depth_ b = global_depth_ t → global_depth_ t + 1 < 31 → P (grown t)) →
  (∀ t t' l b, P t → addressed hash key t l b →
     Bucket_Insert key value b = (false, b) →
     depth_ b < global_depth_ t →
     SplitBucket hash key t = Done (tt, t') → P t') →
  P t → Insert hash fuel key value t = Done (tt, t') →
  Q t' ∧ 0 ≤ global_depth_ t' < 31.
Proof.
  intros HPI Hins Hgrow Hsplit HP H. unfold Insert in H.
  apply bind_Done in H as (index & t1 & Hi & H).
  apply bind_Done in H as (bucket & t2 & Hl & H).
  assert (t1 = t) as ->.
  { apply IndexOf_Done in Hi as [_ Hi]. congruence. }
  assert (t2 = t) as ->.
  { apply load_dir_Done in Hl as (? & _ & _ & Hl). congruence. }
  by eapply (Insert_loop_keeps P Q).
Qed.

Lemma Insert_Inv fuel key value t t' :
  Inv hash t → Insert hash fuel key value t = Done (tt, t') →
  Inv hash t' ∧ 0 ≤ global_depth_ t' < 31.
Proof.
  intros HI H. eapply (Insert_keeps (Inv hash) (Inv hash)); try done.
  - intros. by eapply Bucket_Insert_Inv.
  - intros. by apply grown_Inv.
  - intros. by eapply SplitBucket_Inv.
Qed.

Lemma Remove_Inv key t r t' :
  Inv hash t → Remove hash key t = Done (r, t') →
  Inv hash t' ∧ 0 ≤ global_depth_ t' < 31.
Proof.
  intros HI H. apply Remove_Done in H as (l & b & Ha & [= -> ->]).
  split; [by apply Bucket_Remove_Inv|]. simpl. apply Ha.
Qed.

Lemma reachable_Inv t :
  reachable hash t → Inv hash t ∧ 0 ≤ global_depth_ t < 31.
Proof.
  induction 1 as [n|t fuel key value t' _ [IH _] H|t key r t' _ [IH _] H
                 |t key value r t' _ IH H|t r t' _ IH H|t i r t' _ IH H
                 |t r t' _ IH H].
  - split; [apply new_table_Inv|simpl; lia].
  - by eapply Insert_Inv.
  - by eapply Remove_Inv.
  - apply Find_Done in H as (l & b & _ & [= _ ->]). done.
  - apply gets_Done in H as [= _ ->]. done.
  - unfold GetLocalDepth in H. apply bind_Done in H as (p & t1 & Hl & H).
    apply load_dir_Done in Hl as (? & _ & _ & [= <- <-]).
    destruct p as [l|]; [|done].
    apply call_GetDepth_Done in H as (b & _ & [= _ <-]). done.
  - apply gets_Done in H as [= _ ->]. done.
Qed.

(** ** Counting the slots of a bucket *)

Lemma count_filter_lookup {A} (P : A → Prop) (Q : nat → Prop)
    `{∀ x, Decision (P x)} `{∀ j, Decision (Q j)} (l : list A) :
  (∀ j x, l !! j = Some x → P x ↔ Q j) →
  length (filter P l) = length (filter Q (seq 0 (length l))).
Proof.
  induction l as [|x l IH] using rev_ind; intros HPQ; [done|].
  rewrite length_app, Nat.add_1_r, seq_S, !filter_app, !length_app. simpl.
  rewrite IH by (intros j y Hj; apply HPQ; by apply lookup_app_l_Some).
  f_equal. specialize (HPQ (length l) x (list_lookup_middle _ _ _ _ eq_refl)).
  rewrite !filter_cons, !filter_nil.
  destruct (decide (P x)), (decide (Q (length l))); tauto.
Qed.

Lemma count_class_block (n r k len : nat) :
  (len ≤ n)%nat →
  length (filter (λ j, j mod n = r)%nat (seq (n * k) len)) =
  if decide (r < len)%nat then 1%nat else 0%nat.
Proof.
  induction len as [|len IH]; intros Hlen; [done|].
  rewrite seq_S, filter_app, length_app, IH by lia.
  rewrite filter_cons, filter_nil.
  assert ((n * k + len) mod n = len)%nat as Hmod.
  { rewrite Nat.add_comm, Nat.mul_comm, Nat.Div0.mod_add.
    apply Nat.mod_small. lia. }
  rewrite Hmod. repeat case_decide; simpl; lia.
Qed.

Lemma count_class (n r m : nat) :
  (r < n)%nat →
  length (filter (λ j, j mod n = r)%nat (seq 0 (n * m))) = m.
Proof.
  intros Hr. induction m as [|m IH]; [by rewrite Nat.mul_0_r|].
  replace (n * S m)%nat with (n * m + n)%nat by lia.
  rewrite seq_app, filter_app, length_app, IH. simpl.
  rewrite count_class_block by lia. rewrite decide_True by done. lia.
Qed.

Lemma same_low_nat d (j i : nat) :
  0 ≤ d →
  same_low d (Z.of_nat j) (Z.of_nat i) ↔
  (j mod 2 ^ Z.to_nat d = i mod 2 ^ Z.to_nat d)%nat.
Proof.
  intros Hd. unfold same_low.
  assert (2 ^ d = Z.of_nat (2 ^ Z.to_nat d)) as ->.
  { rewrite Nat2Z.inj_pow, Z2Nat.id by done. done. }
  rewrite <-!Nat2Z.inj_mod. split; [apply Nat2Z.inj|congruence].
Qed.

Lemma slot_count_Inv t i l b :
  Inv hash t → slot t i l b →
  Z.of_nat (slot_count l t) = 2 ^ (global_depth_ t - depth_ b).
Proof.
  intros HI Hs. pose proof (slot_bucket_ok _ _ _ _ HI Hs) as Hok.
  destruct HI as [Hg Hlen _]. destruct Hok as [Hd _ _ _ Hsl _].
  unfold slot_count.
  rewrite (count_filter_lookup _
    (λ j, j mod 2 ^ Z.to_nat (depth_ b) = i mod 2 ^ Z.to_nat (depth_ b))%nat).
  - assert (length (dir_ t) =
            2 ^ Z.to_nat (depth_ b) * 2 ^ Z.to_nat (global_depth_ t - depth_ b))%nat
      as ->.
    { apply Nat2Z.inj. rewrite Hlen, Nat2Z.inj_mul, !Nat2Z.inj_pow.
      rewrite !Z2Nat.id by lia. rewrite <-Z.pow_add_r by lia.
      f_equal. lia. }
    rewrite count_class.
    + rewrite Nat2Z.inj_pow, Z2Nat.id by lia. done.
    + apply Nat.mod_upper_bound. apply Nat.pow_nonzero. lia.
  - intros j p Hj. rewrite <-same_low_nat by lia.
    rewrite <-(Hsl j) by by eapply lookup_lt_Some. rewrite Hj.
    split; congruence.
Qed.

(** ** What lookups see across the steps of [Insert] *)

Lemma filter_iff_elem {A} (P1 P2 : A → Prop)
    `{!∀ x, Decision (P1 x), !∀ x, Decision (P2 x)} (l : list A) :
  (∀ x, x ∈ l → P1 x ↔ P2 x) → filter P1 l = filter P2 l.
Proof.
  induction l as [|x l IH]; intros HP; [done|].
  rewrite !filter_cons.
  rewrite IH by (intros y Hy; apply HP; by apply list_elem_of_further).
  specialize (HP x (list_elem_of_here _ _)).
  destruct (decide (P1 x)), (decide (P2 x)); tauto.
Qed.

Lemma filter_all {A} (P : A → Prop) `{!∀ x, Decision (P x)} (l : list A) :
  (∀ x, x ∈ l → P x) → filter P l = l.
Proof.
  induction l as [|x l IH]; intros HP; [done|].
  rewrite filter_cons_True by (apply HP, list_elem_of_here).
  f_equal. apply IH. intros y Hy. by apply HP, list_elem_of_further.
Qed.

Lemma find_list_filter (P : K → Prop) `{!∀ k, Decision (P k)}
    key value (l : list (K * V)) :
  P key → find_list key value (filter (λ kv, P kv.1) l) = find_list key value l.
Proof.
  intros HP. induction l as [|[k v] l IH]; [done|].
  rewrite filter_cons. simpl. destruct (decide (k = key)) as [->|Hne].
  - rewrite decide_True by done. simpl. by rewrite decide_True.
  - case_decide; simpl; [rewrite decide_False by done|]; apply IH.
Qed.

Lemma Inv_addressed key t :
  Inv hash t → 0 ≤ global_depth_ t < 31 → ∃ l b, addressed hash key t l b.
Proof.
  intros HI Hgd. pose proof HI as [_ Hlen _].
  pose proof (index_range key (global_depth_ t) ltac:(lia)) as Hr.
  destruct (lookup_lt_is_Some_2 (dir_ t)
              (Z.to_nat (hash key mod 2 ^ global_depth_ t))) as [p Hp]; [lia|].
  destruct (Inv_lookup _ _ _ HI Hp) as (l & b & -> & [_ Hb] & _).
  exists l, b. split; [done|]. by split.
Qed.

(** A key lies in no other bucket than the one the directory gives for it. *)
Lemma present_addressed key t l b :
  Inv hash t → addressed hash key t l b → present t key → key ∈ (list_ b).*1.
Proof.
  intros HI (Hgd & Hdir & Hheap) (i & l' & b' & Hs & Hin).
  pose proof (slot_bucket_ok _ _ _ _ HI Hs) as [Hd _ _ _ Hsl Hk].
  pose proof (Hk _ Hin) as Hcl.
  assert (dir_ t !! Z.to_nat (hash key mod 2 ^ global_depth_ t) = Some (Some l'))
    as Hl'.
  { apply Hsl; [by eapply lookup_lt_Some|].
    rewrite Z2Nat.id by (apply index_range; lia).
    eapply same_low_trans; [|exact Hcl]. apply same_low_mod. lia. }
  destruct Hs as [_ Hb']. by simplify_eq.
Qed.

(** A bucket that holds [key] under some slot is the bucket [key] is
    addressed to. *)
Lemma slot_key_addressed t i l b key :
  Inv hash t → 0 ≤ global_depth_ t < 31 → slot t i l b →
  key ∈ (list_ b).*1 → addressed hash key t l b.
Proof.
  intros HI Hgd Hs Hin.
  destruct (Inv_addressed key t HI Hgd) as (l' & b' & Ha).
  assert (key ∈ (list_ b').*1) as Hin'.
  { apply (present_addressed key t l' b' HI Ha). by exists i, l, b. }
  pose proof Ha as (_ & Hdir' & Hheap').
  pose proof (slot_bucket_ok _ _ _ _ HI Hs) as [Hd _ _ _ Hsl Hk].
  pose proof (Hk _ Hin) as Hcl.
  assert (dir_ t !! Z.to_nat (hash key mod 2 ^ global_depth_ t) = Some (Some l))
    as Hl.
  { apply Hsl; [by eapply lookup_lt_Some|].
    rewrite Z2Nat.id by (apply index_range; lia).
    eapply same_low_trans; [|exact Hcl]. apply same_low_mod. lia. }
  destruct Hs as [_ Hb]. assert (l' = l) as -> by congruence.
  by assert (b' = b) as -> by congruence.
Qed.

(** The in-place assignment of [Bucket::Insert]: the first entry for
    the key gets the new value, where it stands. *)
Lemma assign_list_first key value v (l1 l2 : list (K * V)) :
  key ∉ l1.*1 →
  assign_list key value (l1 ++ (key, v) :: l2) = Some (l1 ++ (key, value) :: l2).
Proof.
  induction l1 as [|[k w] l1 IH]; simpl.
  - intros _. by rewrite decide_True.
  - intros [Hk Hl]%not_elem_of_cons. rewrite decide_False by congruence.
    by rewrite IH.
Qed.

Lemma NoDup_keys_value key v v' (l : list (K * V)) :
  NoDup l.*1 → (key, v) ∈ l → (key, v') ∈ l → v = v'.
Proof.
  intros Hnd Hin Hin'. apply list_elem_of_split in Hin as (l1 & l2 & ->).
  rewrite fmap_app in Hnd. simpl in Hnd.
  apply NoDup_app in Hnd as (_ & Hd & Hnd2). apply NoDup_cons in Hnd2 as [Hk _].
  apply elem_of_app in Hin' as [Hin'|Hin'].
  - exfalso. apply (Hd key); [|apply list_elem_of_here].
    apply list_elem_of_fmap. by exists (key, v').
  - apply elem_of_cons in Hin' as [[= ->]|Hin']; [done|].
    exfalso. apply Hk. apply list_elem_of_fmap. by exists (key, v').
Qed.

(** Two entries for one key, under any two slots, are one entry of one
    bucket. *)
Lemma entries_agree t key i l b v i' l' b' v' :
  Inv hash t → 0 ≤ global_depth_ t < 31 →
  slot t i l b → slot t i' l' b' →
  (key, v) ∈ list_ b → (key, v') ∈ list_ b' →
  l = l' ∧ b = b' ∧ v = v'.
Proof.
  intros HI Hgd Hs Hs' Hin Hin'.
  assert (key ∈ (list_ b).*1) as Hk
    by (apply list_elem_of_fmap; by exists (key, v)).
  assert (key ∈ (list_ b').*1) as Hk'
    by (apply list_elem_of_fmap; by exists (key, v')).
  destruct (addressed_inj _ _ _ _ _ _
              (slot_key_addressed _ _ _ _ _ HI Hgd Hs Hk)
              (slot_key_addressed _ _ _ _ _ HI Hgd Hs' Hk')) as [<- <-].
  split; [done|]. split; [done|].
  destruct (slot_bucket_ok _ _ _ _ HI Hs) as [_ _ _ Hnd _ _].
  by eapply NoDup_keys_value.
Qed.

(** After a split every key is still addressed to the bucket it was,
    or, if that was the split bucket, to the fresh bucket that received
    the entries agreeing with the key on one more bit. *)
Lemma SplitBucket_addressed key t t' l b k l1 b1 :
  Inv hash t → addressed hash key t l b → depth_ b < global_depth_ t →
  SplitBucket hash key t = Done (tt, t') →
  addressed hash k t l1 b1 →
  (l1 ≠ l ∧ addressed hash k t' l1 b1) ∨
  (l1 = l ∧ ∃ l' b', addressed hash k t' l' b' ∧
     size_ b' = bucket_size_ t ∧ depth_ b' = depth_ b + 1 ∧
     list_ b' = filter (λ kv, same_low (depth_ b + 1) (hash kv.1) (hash k))
                  (list_ b)).
Proof.
  intros HI Ha Hlt Hrun (Hgd1 & Hdir1 & Hheap1).
  pose proof Ha as (Hgd & Hdir & Hheap).
  pose proof (slot_bucket_ok _ _ _ _ HI (conj Hdir Hheap))
    as [Hdep Hsz Hle Hnd Hsl Hk].
  destruct (SplitBucket_Done key t t' l b Hrun Ha Hnd)
    as (Hd' & Eg & Es & En & Edir & Elen & El & Elo & Ehi & Eoth); [lia|].
  set (index := hash key mod 2 ^ global_depth_ t) in *.
  set (d := depth_ b + 1) in *. set (n := length (heap_ t)) in *.
  set (i1 := Z.to_nat (hash k mod 2 ^ global_depth_ t)) in *.
  assert (Z.of_nat i1 = hash k mod 2 ^ global_depth_ t) as Hi1
    by (apply Z2Nat.id, index_range; lia).
  assert (0 ≤ index) as Hidx0 by (apply index_range; lia).
  assert (same_low d (Z.of_nat i1) (hash k)) as Hi1k
    by (rewrite Hi1; apply same_low_mod; lia).
  assert (dir_ t' !! i1 = Some (split_slot l n d index i1 (Some l1))) as Hdir'
    by by rewrite Edir, list_lookup_imap, Hdir1.
  assert (l1 < n)%nat as Hl1 by by eapply lookup_lt_Some.
  unfold split_slot in Hdir'.
  destruct (decide (Some l1 = Some l)) as [[= ->]|Hne].
  - right. split; [done|]. assert (b1 = b) as -> by congruence.
    assert (∀ kv, kv ∈ list_ b → same_low (depth_ b) (hash kv.1) index) as Hcls.
    { intros [k' v'] Hin. simpl.
      assert (k' ∈ (list_ b).*1) as Hin'
        by (apply list_elem_of_fmap; by exists (k', v')).
      apply Hk in Hin'. by rewrite Z2Nat.id in Hin'. }
    assert (same_low (depth_ b) (Z.of_nat i1) index) as Hi1cls.
    { apply (Hsl i1) in Hdir1; [|by eapply lookup_lt_Some].
      by rewrite Z2Nat.id in Hdir1. }
    case_decide as Hside.
    + eexists _, _. split; [|split; [|split]].
      * split; [by rewrite Eg|]. rewrite Eg. split; [exact Hdir'|exact Ehi].
      * done.
      * done.
      * simpl. apply list_filter_iff. intros [k' v']. simpl.
        split; intros; eauto using same_low_trans, same_low_sym.
    + eexists _, _. split; [|split; [|split]].
      * split; [by rewrite Eg|]. rewrite Eg. split; [exact Hdir'|exact Elo].
      * done.
      * done.
      * simpl. apply filter_iff_elem. intros [k' v'] Hin.
        apply Hcls in Hin. simpl in *. split.
        -- intros Hn. apply (same_low_trans _ _ (Z.of_nat i1)); [|done].
           apply (same_low_other_half _ _ _ index); [lia|done..].
        -- intros Hs Hc. apply Hside.
           eauto using same_low_trans, same_low_sym.
  - left. assert (l1 ≠ l) by congruence. split; [done|].
    split; [by rewrite Eg|]. rewrite Eg. split; [done|]. by rewrite Eoth.
Qed.

Lemma addressed_update key t l b b' k l1 b1 :
  heap_ t !! l = Some b → addressed hash k t l1 b1 →
  addressed hash k (set_heap (<[l := b']> (heap_ t)) t) l1
    (if decide (l1 = l) then b' else b1).
Proof.
  intros Hb (Hgd & Hdir & Hheap). split; [done|]. split; [done|]. simpl.
  case_decide as Hl; [subst|].
  - apply list_lookup_insert_eq. by eapply lookup_lt_Some.
  - by rewrite list_lookup_insert_ne.
Qed.

(** * The properties of the specification *)

Lemma Insert_finds fuel key value t t' :
  Inv hash t →
  Insert hash fuel key value t = Done (tt, t') →
  ∀ x, Find hash key x t' = Done ((true, value), t').
Proof.
  intros HI H.
  refine (proj1 (Insert_keeps (Inv hash)
    (λ t', ∀ x, Find hash key x t' = Done ((true, value), t'))
    fuel key value t t' _ _ _ _ HI H)); try done.
  - intros t0 l b b' _ Ha E x. apply Find_Done. exists l, b'.
    split; [by apply (addressed_set_heap _ _ _ b)|].
    destruct (Bucket_Insert_true _ _ _ _ E) as (_ & _ & Hf & _).
    by rewrite Hf.
  - intros. by apply grown_Inv.
  - intros t0 t0' l b HI0 Ha _ Hlt Hsp.
    exact (SplitBucket_Inv _ _ _ _ _ HI0 Ha Hlt Hsp).
Qed.

(** C1 (round trip).  From every reachable state, when [insert(k, v)]
    returns, [find(k)] on the state it leaves returns [true] and puts
    [v] into the caller's variable. *)
Theorem Insert_Find_round_trip fuel key value t t' :
  reachable hash t →
  Insert hash fuel key value t = Done (tt, t') →
  ∀ x, Find hash key x t' = Done ((true, value), t').
Proof. intros [HI _]%reachable_Inv. by apply Insert_finds. Qed.

(** C2 (coverage).  In every reachable state, a bucket [b] that some
    directory slot refers to is referred to by exactly
    [2 ^ (global depth - local depth of b)] slots. *)
Theorem coverage t i l b :
  reachable hash t → slot t i l b →
  Z.of_nat (slot_count l t) = 2 ^ (global_depth_ t - depth_ b).
Proof. intros [HI _]%reachable_Inv Hs. by eapply slot_count_Inv. Qed.

(** C5 (directory).  In every reachable state the directory has
    [2 ^ global depth] slots. *)
Theorem directory_length t :
  reachable hash t → Z.of_nat (length (dir_ t)) = 2 ^ global_depth_ t.
Proof. intros [HI _]%reachable_Inv. apply HI. Qed.

(** C4 (redistribution).  When [SplitBucket] splits the bucket [b]
    addressed by the inserted key, in a state that satisfies the table's
    invariant (as every state in which [Insert] calls it does), the two
    fresh buckets hold exactly the entries of [b]: with [d] the
    incremented depth, [prefixMask = (1 << d) - 1] and [addressPrefix =
    prefixMask & IndexOf(key)], the second fresh bucket has, in order,
    the entries whose hash masked by [prefixMask] is [addressPrefix],
    the first has the others, and together they are a permutation of
    the entries of [b]. *)
Theorem SplitBucket_redistributes key t t' l b :
  Inv hash t → addressed hash key t l b →
  SplitBucket hash key t = Done (tt, t') →
  let d := depth_ b + 1 in
  let prefixMask := Z.shiftl 1 d - 1 in
  let index := Z.land (hash key) (Z.shiftl 1 (global_depth_ t) - 1) in
  let addressPrefix := Z.land prefixMask index in
  ∃ loBucket hiBucket,
    heap_ t' !! length (heap_ t) = Some loBucket ∧
    heap_ t' !! S (length (heap_ t)) = Some hiBucket ∧
    depth_ loBucket = d ∧ depth_ hiBucket = d ∧
    list_ hiBucket =
      filter (λ kv, Z.land (hash kv.1) prefixMask = addressPrefix) (list_ b) ∧
    list_ loBucket =
      filter (λ kv, Z.land (hash kv.1) prefixMask ≠ addressPrefix) (list_ b) ∧
    list_ hiBucket ++ list_ loBucket ≡ₚ list_ b.
Proof.
  intros HI Ha Hrun d prefixMask index addressPrefix.
  pose proof Ha as (Hgd & Hdir & Hheap).
  pose proof (slot_bucket_ok _ _ _ _ HI (conj Hdir Hheap))
    as [Hdep Hsz Hle Hnd _ _].
  destruct (SplitBucket_Done key t t' l b Hrun Ha Hnd)
    as (Hd' & _ & _ & _ & _ & _ & _ & Elo & Ehi & _); [lia|].
  fold d in Hd', Elo, Ehi.
  assert (prefixMask = Z.ones d) as -> by (unfold prefixMask, Z.ones; lia).
  assert (index = hash key mod 2 ^ global_depth_ t) as Hindex.
  { unfold index. rewrite <-Z.land_ones by lia.
    f_equal; unfold Z.ones; lia. }
  assert (∀ x, Z.land x (Z.ones d) = addressPrefix ↔
               same_low d x (hash key mod 2 ^ global_depth_ t)) as Hiff.
  { intros x. unfold addressPrefix. rewrite Hindex.
    apply land_ones_low. lia. }
  eexists _, _. split; [exact Elo|]. split; [exact Ehi|]. simpl.
  assert (filter (λ kv : K * V, Z.land (hash kv.1) (Z.ones d) = addressPrefix)
            (list_ b)
          = filter (λ kv, same_low d (hash kv.1)
                            (hash key mod 2 ^ global_depth_ t)) (list_ b)) as ->.
  { apply list_filter_iff. intros kv. apply Hiff. }
  assert (filter (λ kv : K * V, Z.land (hash kv.1) (Z.ones d) ≠ addressPrefix)
            (list_ b)
          = filter (λ kv, ¬ same_low d (hash kv.1)
                            (hash key mod 2 ^ global_depth_ t)) (list_ b)) as ->.
  { apply list_filter_iff. intros kv. by rewrite Hiff. }
  split_and!; try done.
  apply (filter_app_complement
    (λ kv : K * V, same_low d (hash kv.1) (hash key mod 2 ^ global_depth_ t))).
Qed.

(** C6 (update).  In every state, if [find(k)] finds [k] with [v1], then
    [insert(k, v2)] returns at the first test of the loop, whatever the
    fill of the bucket: it leaves the global depth, the directory, the
    bucket counter and the number of allocated buckets as they were, and
    [find(k)] then gives [v2].  The value is overwritten where it
    stands: the state after is the state before with, in the bucket the
    key is addressed to, the entry [(k, v1)] that the scan stops at
    replaced by [(k, v2)], so no entry is added, moved or dropped.  In a
    reachable state no entry of the table then has [k] with another
    value. *)
Theorem Insert_present_overwrites fuel key v1 v2 x t t1 :
  Find hash key x t = Done ((true, v1), t1) →
  ∃ t',
    Insert hash (S fuel) key v2 t = Done (tt, t') ∧
    (∀ y, Find hash key y t' = Done ((true, v2), t')) ∧
    global_depth_ t' = global_depth_ t ∧
    dir_ t' = dir_ t ∧
    length (heap_ t') = length (heap_ t) ∧
    num_buckets_ t' = num_buckets_ t ∧
    GetNumBuckets t' = Done (num_buckets_ t, t') ∧
    (∃ l b l1 l2,
       addressed hash key t l b ∧
       list_ b = l1 ++ (key, v1) :: l2 ∧ (key ∉ l1.*1) ∧
       t' = set_heap
              (<[l := mkBucket (size_ b) (depth_ b) (l1 ++ (key, v2) :: l2)]>
                 (heap_ t)) t) ∧
    (reachable hash t →
     ∀ i l b v, slot t' i l b → (key, v) ∈ list_ b → v = v2).
Proof.
  intros (l & b & Ha & [= Hf _])%Find_Done.
  symmetry in Hf. apply find_list_true in Hf as (l1 & l2 & Hb & Hn1).
  assert (key ∈ (list_ b).*1) as Hin.
  { rewrite Hb, fmap_app, elem_of_app. right. simpl. apply list_elem_of_here. }
  assert (Bucket_Insert key v2 b
          = (true, mkBucket (size_ b) (depth_ b) (l1 ++ (key, v2) :: l2))) as E.
  { unfold Bucket_Insert. by rewrite Hb, (assign_list_first key v2 v1 l1 l2 Hn1). }
  destruct (addressed_Done _ _ _ _ Ha) as (index & Hi & Hl & _).
  pose proof Ha as (_ & _ & Hheap).
  assert (Insert hash (S fuel) key v2 t
          = Done (tt, set_heap
                (<[l := mkBucket (size_ b) (depth_ b) (l1 ++ (key, v2) :: l2)]>
                   (heap_ t)) t)) as HIns.
  { unfold Insert. rewrite (bind_eq _ _ _ _ _ Hi), (bind_eq _ _ _ _ _ Hl).
    simpl. erewrite bind_eq; [|apply call_Insert_Done; eauto].
    rewrite E. reflexivity. }
  eexists. split; [exact HIns|].
  assert (addressed hash key
            (set_heap
               (<[l := mkBucket (size_ b) (depth_ b) (l1 ++ (key, v2) :: l2)]>
                  (heap_ t)) t) l
            (mkBucket (size_ b) (depth_ b) (l1 ++ (key, v2) :: l2))) as Ha'
    by (by apply (addressed_set_heap _ _ _ b)).
  simpl. rewrite length_insert. split_and!; try done.
  - intros y. apply Find_Done. eexists _, _. split; [exact Ha'|].
    destruct (Bucket_Insert_true _ _ _ _ E) as (_ & _ & Hf' & _).
    by rewrite Hf'.
  - by exists l, b, l1, l2.
  - intros Hr i l0 b0 v Hs Hv.
    destruct (reachable_Inv _ (reachable_Insert _ _ _ _ _ _ Hr HIns))
      as [HI' Hgd'].
    destruct Ha' as (_ & Hd' & Hh').
    assert (slot (set_heap
               (<[l := mkBucket (size_ b) (depth_ b) (l1 ++ (key, v2) :: l2)]>
                  (heap_ t)) t)
              (Z.to_nat (hash key mod 2 ^ global_depth_ t)) l
              (mkBucket (size_ b) (depth_ b) (l1 ++ (key, v2) :: l2))) as Hs'
      by (split; done).
    assert ((key, v2) ∈ l1 ++ (key, v2) :: l2) as Hv2.
    { apply elem_of_app. right. apply list_elem_of_here. }
    by destruct (entries_agree _ key _ _ _ v _ _ _ v2 HI' Hgd' Hs Hs' Hv Hv2)
      as (_ & _ & ->).
Qed.

(** C7 (deletion).  From every reachable state: when [insert(k, v)]
    returns, [remove(k)] on the state it leaves returns [true] and
    [find(k)] then returns [false]; and when [k] is in no bucket of the
    directory, [remove(k)] returns [false] and leaves the table as it
    was. *)
Theorem Remove_semantics key t :
  reachable hash t →
  (∀ fuel value t1,
     Insert hash fuel key value t = Done (tt, t1) →
     ∃ t2, Remove hash key t1 = Done (true, t2) ∧
           ∀ x, Find hash key x t2 = Done ((false, x), t2)) ∧
  (¬ present t key → Remove hash key t = Done (false, t)).
Proof.
  intros Hr. split.
  - intros fuel value t1 Hins.
    pose proof (reachable_Insert _ _ _ _ _ _ Hr Hins) as Hr1.
    apply reachable_Inv in Hr1 as [HI1 Hgd1].
    pose proof (Insert_finds _ _ _ _ _ (proj1 (reachable_Inv _ Hr)) Hins value)
      as Hf.
    apply Find_Done in Hf as (l & b & Ha & [= Hf]).
    pose proof Ha as (_ & Hdir & Hheap).
    pose proof (slot_bucket_ok _ _ _ _ HI1 (conj Hdir Hheap)) as Hok.
    destruct (Bucket_Remove key b) as [[] b'] eqn:E.
    + destruct (Bucket_Remove_true _ _ _ E) as (_ & _ & _ & _ & _ & Hnd & _).
      destruct (Hnd (ok_nodup _ _ _ _ _ Hok)) as [_ Hnin].
      eexists. split.
      * apply Remove_Done. exists l, b. split; [done|]. by rewrite E.
      * intros x. apply Find_Done. exists l, b'.
        split; [by apply (addressed_set_heap _ _ _ b)|].
        by rewrite find_list_absent.
    + apply Bucket_Remove_false in E as [_ Hnin].
      symmetry in Hf. apply find_list_true in Hf as (l1 & l2 & Hl & _).
      exfalso. apply Hnin. rewrite Hl, fmap_app, elem_of_app. right.
      apply list_elem_of_here.
  - intros Hnp. apply reachable_Inv in Hr as [HI Hgd].
    destruct (Inv_addressed key t HI Hgd) as (l & b & Ha).
    pose proof Ha as (_ & Hdir & Hheap).
    apply Remove_Done. exists l, b. split; [done|].
    rewrite Bucket_Remove_absent.
    + simpl. by rewrite list_insert_id, set_heap_id.
    + intros Hin. apply Hnp. eexists _, l, b. split; [exact (proj2 Ha)|done].
Qed.

(** C8, as the code has it.  [GetLocalDepth] does not check its index.
    In a reachable state an index within the directory gives the local
    depth of the bucket that slot refers to; an index outside it (below
    0 or from the directory's length on) is an unchecked [operator[]],
    undefined behaviour, in any state. *)
Theorem GetLocalDepth_semantics (dir_index : Z) t :
  (reachable hash t → 0 ≤ dir_index < Z.of_nat (length (dir_ t)) →
   ∃ l b, slot t (Z.to_nat dir_index) l b ∧
          GetLocalDepth dir_index t = Done (depth_ b, t)) ∧
  (¬ 0 ≤ dir_index < Z.of_nat (length (dir_ t)) →
   GetLocalDepth dir_index t = Undefined).
Proof.
  split.
  - intros [HI _]%reachable_Inv Hi.
    destruct (lookup_lt_is_Some_2 (dir_ t) (Z.to_nat dir_index)) as [p Hp];
      [lia|].
    destruct (Inv_lookup _ _ _ HI Hp) as (l & b & -> & Hs & _).
    exists l, b. split; [done|]. unfold GetLocalDepth.
    erewrite bind_eq; last first.
    { apply load_dir_Done. eexists. split_and!; [lia|done..]. }
    apply call_GetDepth_Done. exists b. split; [apply Hs|done].
  - intros Hi. unfold GetLocalDepth, bind, load_dir.
    case_decide; [|done].
    rewrite (lookup_ge_None_2 (dir_ t) (Z.to_nat dir_index)) by lia. done.
Qed.

(** C9 (frame).  From every reachable state where [find(k1)] gives
    [v1], when [insert(k2, v2)] for another key returns, also after
    growing the directory and splitting buckets, [find(k1)] still gives
    [v1]. *)
Theorem Insert_other_key fuel k1 k2 v1 v2 x t t' :
  reachable hash t → k1 ≠ k2 →
  Find hash k1 x t = Done ((true, v1), t) →
  Insert hash fuel k2 v2 t = Done (tt, t') →
  Find hash k1 x t' = Done ((true, v1), t').
Proof.
  intros [HI _]%reachable_Inv Hne Hf H.
  set (P := λ t : Table,
    Inv hash t ∧ ∃ l b, addressed hash k1 t l b ∧
                        find_list k1 x (list_ b) = (true, v1)).
  assert (∀ t, P t → Find hash k1 x t = Done ((true, v1), t)) as HPF.
  { intros t0 (_ & l & b & Ha & Hfl). apply Find_Done. exists l, b.
    by rewrite Hfl. }
  apply HPF.
  refine (proj1 (Insert_keeps P P fuel k2 v2 t t' _ _ _ _ _ H)).
  - by intros t0 [? _].
  - intros t0 l b b' (HI0 & l1 & b1 & Ha1 & Hf1) Ha E.
    split; [by eapply Bucket_Insert_Inv|].
    pose proof Ha as (_ & _ & Hheap).
    eexists _, _. split; [by apply (addressed_update k2 _ _ b b')|].
    case_decide as Hl; [|done]. subst l1.
    destruct Ha1 as (_ & _ & Hheap1). assert (b1 = b) as -> by congruence.
    destruct (Bucket_Insert_true _ _ _ _ E) as (_ & _ & _ & Ho & _).
    by rewrite Ho.
  - intros t0 l b (HI0 & l1 & b1 & Ha1 & Hf1) Ha _ _ Hlt.
    split; [by apply grown_Inv|]. exists l1, b1.
    split; [by apply addressed_grown|done].
  - intros t0 t0' l b (HI0 & l1 & b1 & Ha1 & Hf1) Ha _ Hlt Hsp.
    split; [exact (SplitBucket_Inv _ _ _ _ _ HI0 Ha Hlt Hsp)|].
    destruct (SplitBucket_addressed _ _ _ _ _ _ _ _ HI0 Ha Hlt Hsp Ha1)
      as [[_ Ha1']|(-> & l' & b' & Ha1' & _ & _ & Hl')].
    + by exists l1, b1.
    + exists l', b'. split; [done|]. rewrite Hl'.
      assert (b1 = b) as ->.
      { destruct Ha as (_ & _ & Hb), Ha1 as (_ & _ & Hb1). congruence. }
      rewrite <-Hf1.
      by apply (@find_list_filter
        (λ k, same_low (depth_ b + 1) (hash k) (hash k1))
        (λ k, same_low_dec (depth_ b + 1) (hash k) (hash k1))).
  - split; [done|]. apply Find_Done in Hf as (l & b & Ha & [= Hfl]).
    by exists l, b.
Qed.

(** C10 (output parameter).  In every reachable state [find(k, value)]
    returns.  When [k] is in no bucket of the directory it returns
    [false] with [value] as the caller passed it; whenever it returns
    [false], [value] is as passed and [k] is in no bucket; whenever it
    returns [true], [value] is what is stored for [k]. *)
Theorem Find_output_parameter key value t :
  reachable hash t →
  ∃ r, Find hash key value t = Done (r, t) ∧
    (¬ present t key → r = (false, value)) ∧
    (r.1 = false → r.2 = value ∧ ¬ present t key) ∧
    (r.1 = true → stored t key r.2).
Proof.
  intros [HI Hgd]%reachable_Inv.
  destruct (Inv_addressed key t HI Hgd) as (l & b & Ha).
  pose proof Ha as (_ & Hdir & Hheap).
  exists (find_list key value (list_ b)). split; [|split_and!].
  - apply Find_Done. by exists l, b.
  - intros Hnp. apply find_list_absent. intros Hin. apply Hnp.
    eexists _, l, b. split; [exact (proj2 Ha)|done].
  - destruct (find_list key value (list_ b)) as [r v'] eqn:E. simpl.
    intros ->. apply find_list_false in E as [Hnin ->]. split; [done|].
    intros Hp. by apply Hnin, (present_addressed key t l b).
  - destruct (find_list key value (list_ b)) as [r v'] eqn:E. simpl.
    intros ->. apply find_list_true in E. eexists _, l, b. split; [exact (proj2 Ha)|done].
Qed.

(** ** No method signals a failure *)

Lemma no_fail_bind {A B} (m : M A) (f : A → M B) :
  no_fail m → (∀ a, no_fail (f a)) → no_fail (bind m f).
Proof.
  intros Hm Hf t e. unfold bind.
  destruct (m t) as [[a t1]|e'| |] eqn:E; try done.
  - apply Hf.
  - by destruct (Hm t e').
Qed.

Lemma no_fail_ret {A} (a : A) : no_fail (ret a : M A).
Proof. done. Qed.
Lemma no_fail_gets {A} (f : Table → A) : no_fail (gets f).
Proof. done. Qed.
Lemma no_fail_modify (f : Table → Table) : no_fail (modify f).
Proof. done. Qed.
Lemma no_fail_lift {A} (o : outcome A) :
  (∀ e, o ≠ Failed e) → no_fail (lift o : M A).
Proof.
  intros Ho t e. unfold lift. destruct o as [|e'| |]; try done.
  by destruct (Ho e').
Qed.
Lemma no_fail_load_dir i : no_fail (load_dir i : M ptr).
Proof.
  intros t e. unfold load_dir. case_decide; [|done].
  by destruct (dir_ t !! Z.to_nat i).
Qed.
Lemma no_fail_store_dir i p : no_fail (store_dir i p : M unit).
Proof. intros t e. unfold store_dir. by case_decide. Qed.
Lemma no_fail_deref p : no_fail (deref p : M Bucket).
Proof.
  intros t e. unfold deref. destruct p as [l|]; [|done].
  by destruct (heap_ t !! l).
Qed.
Lemma no_fail_store p b : no_fail (store p b).
Proof.
  intros t e. unfold store. destruct p as [l|]; [|done]. by case_decide.
Qed.
Lemma no_fail_make_shared b : no_fail (make_shared b).
Proof. done. Qed.
Lemma int_mask_no_fail d e : int_mask d ≠ Failed e.
Proof. unfold int_mask. by case_decide. Qed.
Lemma int_incr_no_fail x e : int_incr x ≠ Failed e.
Proof. unfold int_incr. by case_decide. Qed.
Lemma IncrementDepth_no_fail b e : IncrementDepth b ≠ Failed e.
Proof. unfold IncrementDepth, int_incr. by case_decide. Qed.

Lemma no_fail_for_each {A} (xs : list A) (body : A → M unit) :
  (∀ x, no_fail (body x)) → no_fail (for_each xs body).
Proof.
  intros Hb. induction xs as [|x xs IH]; [done|].
  simpl. apply no_fail_bind; [apply Hb|done].
Qed.

Ltac no_fail :=
  repeat first
    [ solve [auto]
    | apply no_fail_ret | apply no_fail_gets | apply no_fail_modify
    | apply no_fail_load_dir | apply no_fail_store_dir
    | apply no_fail_deref | apply no_fail_store | apply no_fail_make_shared
    | apply no_fail_lift; intros ?;
        first [ apply int_mask_no_fail | apply int_incr_no_fail
              | apply IncrementDepth_no_fail ]
    | apply no_fail_for_each; intros ?
    | apply no_fail_bind; [|intros ?]
    | progress cbv zeta
    | case_decide ].

Lemma no_fail_call_Insert p key value : no_fail (call_Insert p key value).
Proof. unfold call_Insert. no_fail. Qed.
Lemma no_fail_call_GetDepth p : no_fail (call_GetDepth p : M Z).
Proof. unfold call_GetDepth. no_fail. Qed.
Lemma no_fail_IndexOf key : no_fail (IndexOf hash key : M Z).
Proof. unfold IndexOf. no_fail. Qed.
Lemma no_fail_DoubleDirectory : no_fail (DoubleDirectory : M unit).
Proof. unfold DoubleDirectory. no_fail. Qed.
Lemma no_fail_SplitBucket key : no_fail (SplitBucket hash key : M unit).
Proof.
  unfold SplitBucket, call_IncrementDepth, call_GetItems.
  pose proof no_fail_IndexOf. pose proof no_fail_call_GetDepth.
  pose proof no_fail_call_Insert.
  no_fail.
Qed.
Lemma no_fail_Insert_loop fuel key value bucket :
  no_fail (Insert_loop hash fuel key value bucket).
Proof.
  revert bucket. induction fuel as [|fuel IH]; intros bucket; [done|].
  simpl. pose proof no_fail_IndexOf. pose proof no_fail_call_GetDepth.
  pose proof no_fail_call_Insert. pose proof no_fail_SplitBucket.
  pose proof no_fail_DoubleDirectory.
  apply no_fail_bind; [done|]. intros []; [no_fail|].
  no_fail.
Qed.
Lemma no_fail_Insert fuel key value : no_fail (Insert hash fuel key value).
Proof.
  unfold Insert. pose proof no_fail_IndexOf. pose proof no_fail_Insert_loop.
  no_fail.
Qed.
Lemma no_fail_Find key value : no_fail (Find hash key value).
Proof.
  unfold Find, call_Find. pose proof no_fail_IndexOf.
  no_fail.
Qed.
Lemma no_fail_Remove key : no_fail (Remove hash key : M bool).
Proof.
  unfold Remove, call_Remove. pose proof no_fail_IndexOf.
  no_fail.
Qed.
Lemma no_fail_GetLocalDepth i : no_fail (GetLocalDepth i : M Z).
Proof.
  unfold GetLocalDepth. pose proof no_fail_call_GetDepth.
  no_fail.
Qed.

(** ** Keys the directory cannot tell apart *)

Lemma Bucket_Insert_full key value b :
  key ∉ (list_ b).*1 → length (list_ b) = size_ b →
  Bucket_Insert key value b = (false, b).
Proof.
  intros Hn Hfull. unfold Bucket_Insert, IsFull.
  rewrite (proj2 (assign_list_None key value _) Hn).
  by rewrite bool_decide_eq_true_2.
Qed.

Lemma clustered_grown key t :
  Inv hash t → global_depth_ t + 1 < 31 →
  clustered hash key t → clustered hash key (grown t).
Proof.
  intros HI Hlt (l & b & Ha & Hrest). exists l, b.
  split; [by apply addressed_grown|done].
Qed.

Lemma clustered_SplitBucket key t t' l b :
  Inv hash t → addressed hash key t l b → depth_ b < global_depth_ t →
  SplitBucket hash key t = Done (tt, t') →
  clustered hash key t → clustered hash key t'.
Proof.
  intros HI Ha Hlt Hsp (l0 & b0 & Ha0 & Hnin & Hfull & Hsame).
  destruct (addressed_inj _ _ _ _ _ _ Ha Ha0) as [<- <-].
  pose proof Ha as (Hgd & Hdir & Hheap).
  pose proof (slot_bucket_ok _ _ _ _ HI (conj Hdir Hheap)) as [Hdep Hsz _ _ _ _].
  destruct (SplitBucket_addressed _ _ _ _ _ _ _ _ HI Ha Hlt Hsp Ha)
    as [[? _]|(_ & l' & b' & Ha' & Hsz' & Hd' & Hl')]; [done|].
  rewrite filter_all in Hl'.
  - exists l', b'. rewrite Hl'. split_and!; try done. congruence.
  - intros [k v] Hin. simpl. apply (same_low_le _ 30); [lia|].
    apply Hsame. apply list_elem_of_fmap. by exists (k, v).
Qed.

(** With the addressed bucket full of keys that agree with [key] on 30
    hash bits, the loop of [Insert] has no way out: the bucket insert
    is refused, and the split that follows puts every entry into the
    fresh bucket [key] is addressed to, which is full again. *)
Lemma Insert_clustered fuel key value t :
  Inv hash t → clustered hash key t →
  Insert hash fuel key value t = OutOfFuel ∨
  Insert hash fuel key value t = Undefined.
Proof.
  intros HI Hc.
  destruct (Insert hash fuel key value t) as [[[] t']|e| |] eqn:H; auto.
  - exfalso.
    refine (proj1 (Insert_keeps (λ t, Inv hash t ∧ clustered hash key t)
      (λ _, False) fuel key value t t' _ _ _ _ (conj HI Hc) H)).
    + by intros t0 [? _].
    + intros t0 l b b' [_ (l0 & b0 & Ha0 & Hnin & Hfull & _)] Ha E.
      destruct (addressed_inj _ _ _ _ _ _ Ha Ha0) as [<- <-].
      by rewrite Bucket_Insert_full in E.
    + intros t0 l b [HI0 Hc0] _ _ _ Hlt.
      split; [by apply grown_Inv|by apply clustered_grown].
    + intros t0 t0' l b [HI0 Hc0] Ha _ Hlt Hsp.
      split; [exact (SplitBucket_Inv _ _ _ _ _ HI0 Ha Hlt Hsp)|].
      exact (clustered_SplitBucket _ _ _ _ _ HI0 Ha Hlt Hsp Hc0).
  - by destruct (no_fail_Insert fuel key value t e).
Qed.


(** * Further properties of the code *)

(** ** What every reachable table satisfies *)

(** X1.  Capacity: a bucket the directory refers to was made with the
    table's bucket size and holds at most that many entries. *)
Theorem capacity_respected t i l b :
  reachable hash t → slot t i l b →
  size_ b = bucket_size_ t ∧ (length (list_ b) ≤ bucket_size_ t)%nat.
Proof.
  intros [HI _]%reachable_Inv Hs.
  destruct (slot_bucket_ok _ _ _ _ HI Hs) as [_ Hsz Hle _ _ _].
  split; [done|]. by rewrite <-Hsz.
Qed.

(** X2.  Depths: a local depth is between 0 and the global depth, and the
    global depth is at most 30, the largest for which [IndexOf] computes
    its mask without overflow. *)
Theorem depths_bounded t i l b :
  reachable hash t → slot t i l b →
  0 ≤ depth_ b ≤ global_depth_ t ∧ global_depth_ t ≤ 30.
Proof.
  intros [HI Hgd]%reachable_Inv Hs.
  destruct (slot_bucket_ok _ _ _ _ HI Hs) as [Hd _ _ _ _ _].
  split; [done|lia].
Qed.

(** X3.  Sharing: the slots that hold the same bucket as slot [i] are exactly
    those whose index has the same [local depth] low bits as [i]. *)
Theorem slots_sharing_a_bucket t i j l b :
  reachable hash t → slot t i l b → (j < length (dir_ t))%nat →
  dir_ t !! j = Some (Some l) ↔
  Z.land (Z.of_nat j) (Z.shiftl 1 (depth_ b) - 1)
  = Z.land (Z.of_nat i) (Z.shiftl 1 (depth_ b) - 1).
Proof.
  intros [HI _]%reachable_Inv Hs Hj.
  destruct (slot_bucket_ok _ _ _ _ HI Hs) as [Hd _ _ _ Hsl _].
  rewrite (Hsl j Hj). unfold same_low.
  change (1 ≪ depth_ b - 1) with (Z.ones (depth_ b)).
  by rewrite !Z.land_ones by lia.
Qed.

(** X4.  Placement: a key lies only in the bucket [IndexOf] addresses for it,
    once there, and the hash of every key of a bucket has the low bits
    of the bucket's slots. *)
Theorem keys_placed t i l b key :
  reachable hash t → slot t i l b → key ∈ (list_ b).*1 →
  addressed hash key t l b ∧ NoDup (list_ b).*1 ∧
  Z.land (hash key) (Z.shiftl 1 (depth_ b) - 1)
  = Z.land (Z.of_nat i) (Z.shiftl 1 (depth_ b) - 1).
Proof.
  intros [HI Hgd]%reachable_Inv Hs Hin.
  destruct (slot_bucket_ok _ _ _ _ HI Hs) as [Hd _ _ Hnd _ Hk].
  split; [by eapply slot_key_addressed|]. split; [done|].
  change (1 ≪ depth_ b - 1) with (Z.ones (depth_ b)).
  rewrite !Z.land_ones by lia. by apply Hk.
Qed.

(** X5.  One value per key in the whole table: in a reachable state two
    entries with the same key, in the buckets of any two slots, lie in
    the same bucket and carry the same value. *)
Theorem key_value_unique t key i l b v i' l' b' v' :
  reachable hash t → slot t i l b → slot t i' l' b' →
  (key, v) ∈ list_ b → (key, v') ∈ list_ b' →
  v = v' ∧ l = l' ∧ b = b'.
Proof.
  intros [HI Hgd]%reachable_Inv Hs Hs' Hin Hin'.
  destruct (entries_agree _ _ _ _ _ _ _ _ _ _ HI Hgd Hs Hs' Hin Hin')
    as (-> & -> & ->).
  done.
Qed.

(** X6.  No undefined access: in a reachable state [Find] and [Remove] return,
    for every key. *)
Theorem Find_Remove_return key value t :
  reachable hash t →
  (∃ r, Find hash key value t = Done (r, t)) ∧
  (∃ r t', Remove hash key t = Done (r, t')).
Proof.
  intros [HI Hgd]%reachable_Inv.
  destruct (Inv_addressed key t HI Hgd) as (l & b & Ha). split.
  - eexists. apply Find_Done. by exists l, b.
  - eexists _, _. apply Remove_Done. by exists l, b.
Qed.

(** ** How the methods compose *)

Lemma Insert_keeps_find fuel key value k x r t t' :
  Inv hash t → k ≠ key →
  Find hash k x t = Done (r, t) →
  Insert hash fuel key value t = Done (tt, t') →
  Find hash k x t' = Done (r, t').
Proof.
  intros HI Hne Hf H.
  set (P := λ t : Table,
    Inv hash t ∧ ∃ l b, addressed hash k t l b ∧ find_list k x (list_ b) = r).
  assert (∀ t, P t → Find hash k x t = Done (r, t)) as HPF.
  { intros t0 (_ & l & b & Ha & Hfl). apply Find_Done. exists l, b.
    by rewrite Hfl. }
  apply HPF.
  refine (proj1 (Insert_keeps P P fuel key value t t' _ _ _ _ _ H)).
  - by intros t0 [? _].
  - intros t0 l b b' (HI0 & l1 & b1 & Ha1 & Hf1) Ha E.
    split; [by eapply Bucket_Insert_Inv|].
    pose proof Ha as (_ & _ & Hheap).
    eexists _, _. split; [by apply (addressed_update key _ _ b b')|].
    case_decide as Hl; [|done]. subst l1.
    destruct Ha1 as (_ & _ & Hheap1). assert (b1 = b) as -> by congruence.
    destruct (Bucket_Insert_true _ _ _ _ E) as (_ & _ & _ & Ho & _).
    by rewrite Ho.
  - intros t0 l b (HI0 & l1 & b1 & Ha1 & Hf1) Ha _ _ Hlt.
    split; [by apply grown_Inv|]. exists l1, b1.
    split; [by apply addressed_grown|done].
  - intros t0 t0' l b (HI0 & l1 & b1 & Ha1 & Hf1) Ha _ Hlt Hsp.
    split; [exact (SplitBucket_Inv _ _ _ _ _ HI0 Ha Hlt Hsp)|].
    destruct (SplitBucket_addressed _ _ _ _ _ _ _ _ HI0 Ha Hlt Hsp Ha1)
      as [[_ Ha1']|(-> & l' & b' & Ha1' & _ & _ & Hl')].
    + by exists l1, b1.
    + exists l', b'. split; [done|]. rewrite Hl'.
      assert (b1 = b) as ->.
      { destruct Ha as (_ & _ & Hb), Ha1 as (_ & _ & Hb1). congruence. }
      rewrite <-Hf1.
      by apply (@find_list_filter
        (λ k0, same_low (depth_ b + 1) (hash k0) (hash k))
        (λ k0, same_low_dec (depth_ b + 1) (hash k0) (hash k))).
  - split; [done|]. apply Find_Done in Hf as (l & b & Ha & [= Hfl]).
    by exists l, b.
Qed.

(** X7.  [Insert] adds nothing but its key: for every other key, also one that
    is absent, [Find] gives after the insert what it gave before. *)
Theorem Insert_changes_one_key fuel key value k x r t t' :
  reachable hash t → k ≠ key →
  Find hash k x t = Done (r, t) →
  Insert hash fuel key value t = Done (tt, t') →
  Find hash k x t' = Done (r, t').
Proof. intros [HI _]%reachable_Inv. by apply Insert_keeps_find. Qed.

(** X8.  [Remove] returns what [Find] would have, and afterwards the key is
    not found, from any reachable state. *)
Theorem Remove_then_Find key t r t' :
  reachable hash t → Remove hash key t = Done (r, t') →
  (∀ x, ∃ v, Find hash key x t = Done ((r, v), t)) ∧
  (∀ x, Find hash key x t' = Done ((false, x), t')).
Proof.
  intros [HI _]%reachable_Inv (l & b & Ha & [= -> ->])%Remove_Done.
  pose proof Ha as (_ & Hdir & Hheap).
  pose proof (slot_bucket_ok _ _ _ _ HI (conj Hdir Hheap)) as Hok.
  destruct (Bucket_Remove key b) as [[] b'] eqn:E; simpl.
  - destruct (Bucket_Remove_true _ _ _ E) as (_ & _ & Hin & _ & _ & Hnd & _).
    destruct (Hnd (ok_nodup _ _ _ _ _ Hok)) as [_ Hnin]. split.
    + intros x. destruct (find_list key x (list_ b)) as [[] v] eqn:Ef.
      * exists v. apply Find_Done. exists l, b. by rewrite Ef.
      * apply find_list_false in Ef as [Hn _]. done.
    + intros x. apply Find_Done. exists l, b'.
      split; [by apply (addressed_set_heap _ _ _ b)|].
      by rewrite find_list_absent.
  - apply Bucket_Remove_false in E as [-> Hnin].
    rewrite list_insert_id, set_heap_id by done.
    assert (∀ x, Find hash key x t = Done ((false, x), t)) as Hf.
    { intros x. apply Find_Done. exists l, b. by rewrite find_list_absent. }
    split; [|done]. intros x. exists x. apply Hf.
Qed.

(** X9.  [Remove] touches one bucket only: every other key is found as
    before, and the directory, the depths, the bucket counter and the
    number of allocated buckets stay as they were (no merging, no
    shrinking).  This holds in every state. *)
Theorem Remove_changes_one_key key k x f r t t' :
  k ≠ key →
  Remove hash key t = Done (r, t') →
  Find hash k x t = Done (f, t) →
  Find hash k x t' = Done (f, t') ∧
  global_depth_ t' = global_depth_ t ∧ dir_ t' = dir_ t ∧
  num_buckets_ t' = num_buckets_ t ∧ bucket_size_ t' = bucket_size_ t ∧
  length (heap_ t') = length (heap_ t) ∧
  (∀ l b, heap_ t !! l = Some b →
     ∃ b', heap_ t' !! l = Some b' ∧ depth_ b' = depth_ b ∧ size_ b' = size_ b).
Proof.
  intros Hne (l & b & Ha & [= -> ->])%Remove_Done
    (l1 & b1 & Ha1 & [= ->])%Find_Done.
  pose proof Ha as (_ & _ & Hheap). simpl. rewrite length_insert.
  split_and!; try done.
  - apply Find_Done. eexists _, _.
    split; [by apply (addressed_update key _ _ b)|].
    case_decide as Hl; [|done]. subst l1.
    destruct Ha1 as (_ & _ & Hheap1). assert (b1 = b) as -> by congruence.
    destruct (Bucket_Remove key b) as [[] b'] eqn:E; simpl.
    + destruct (Bucket_Remove_true _ _ _ E) as (_ & _ & _ & _ & _ & _ & Ho).
      by rewrite Ho.
    + by apply Bucket_Remove_false in E as [-> _].
  - intros l0 b0 Hb0. destruct (decide (l0 = l)) as [->|Hl].
    + assert (b0 = b) as -> by congruence.
      eexists. split; [apply list_lookup_insert_eq; by eapply lookup_lt_Some|].
      unfold Bucket_Remove. by destruct (remove_list key (list_ b)).
    + exists b0. by rewrite list_lookup_insert_ne.
Qed.

(** X10.  [Insert] only grows the table: when it returns, the global depth, the
    directory length, the bucket counter and the number of allocated
    buckets are at least what they were, and the bucket size is
    unchanged. *)
Theorem Insert_grows_only fuel key value t t' :
  reachable hash t →
  Insert hash fuel key value t = Done (tt, t') →
  global_depth_ t ≤ global_depth_ t' ∧
  (length (dir_ t) ≤ length (dir_ t'))%nat ∧
  num_buckets_ t ≤ num_buckets_ t' ∧
  bucket_size_ t' = bucket_size_ t ∧
  (length (heap_ t) ≤ length (heap_ t'))%nat.
Proof.
  intros [HI _]%reachable_Inv H.
  set (P := λ t0 : Table,
    Inv hash t0 ∧ global_depth_ t ≤ global_depth_ t0 ∧
    num_buckets_ t ≤ num_buckets_ t0 ∧ bucket_size_ t0 = bucket_size_ t ∧
    (length (heap_ t) ≤ length (heap_ t0))%nat).
  assert (P t') as (HI' & Hg & Hn & Hs & Hh).
  { refine (proj1 (Insert_keeps P P fuel key value t t' _ _ _ _ _ H)).
    - by intros t0 [? _].
    - intros t0 l b b' (HI0 & ? & ? & ? & ?) Ha E.
      split; [by eapply Bucket_Insert_Inv|]. simpl.
      by rewrite length_insert.
    - intros t0 l b (HI0 & ? & ? & ? & ?) Ha _ _ Hlt.
      split; [by apply grown_Inv|]. simpl. split_and!; try done. lia.
    - intros t0 t0' l b (HI0 & ? & ? & ? & ?) Ha _ Hlt Hsp.
      split; [exact (SplitBucket_Inv _ _ _ _ _ HI0 Ha Hlt Hsp)|].
      pose proof Ha as (_ & Hdir & Hheap).
      pose proof (slot_bucket_ok _ _ _ _ HI0 (conj Hdir Hheap))
        as [_ Hsz Hle Hnd _ _].
      destruct (SplitBucket_Done key t0 t0' l b Hsp Ha Hnd)
        as (_ & Eg & Es & En & _ & Elen & _); [lia|].
      rewrite Eg, Es, En, Elen. split_and!; try done; lia.
    - unfold P. split_and!; done || lia. }
  split_and!; try done.
  apply Nat2Z.inj_le. rewrite (Inv_length _ _ HI), (Inv_length _ _ HI').
  apply Z.pow_le_mono_r; [lia|done].
Qed.

(** ** The two steps of growth *)

(** X11.  [DoubleDirectory] always returns, and leaves a directory of twice the
    length in which slot [i] and slot [i + old length] both hold what
    slot [i] held; nothing else changes, and no null pointer remains
    from the [resize]. *)
Theorem DoubleDirectory_duplicates t :
  ∃ t', DoubleDirectory t = Done (tt, t') ∧
    length (dir_ t') = (2 * length (dir_ t))%nat ∧
    (∀ i, (i < length (dir_ t))%nat →
       dir_ t' !! i = dir_ t !! i ∧
       dir_ t' !! (i + length (dir_ t))%nat = dir_ t !! i) ∧
    (None ∉ dir_ t → None ∉ dir_ t') ∧
    heap_ t' = heap_ t ∧ global_depth_ t' = global_depth_ t ∧
    num_buckets_ t' = num_buckets_ t ∧ bucket_size_ t' = bucket_size_ t.
Proof.
  eexists. split; [apply DoubleDirectory_Done|]. simpl.
  split_and!; try done.
  - rewrite length_app. lia.
  - intros i Hi. split.
    + by apply lookup_app_l.
    + rewrite lookup_app_r by lia. f_equal. lia.
  - intros Hn. rewrite elem_of_app. tauto.
Qed.

(** X12.  [SplitBucket] on the bucket addressed by [key]: every slot that held
    the bucket now holds one of the two fresh buckets, the second when
    the slot's index masked by [prefixMask] is [addressPrefix], the first
    otherwise; every other slot is untouched; the split bucket is no
    longer in the directory; the bucket counter goes up by one, and the
    global depth stays. *)
Theorem SplitBucket_reassigns key t t' l b :
  Inv hash t → addressed hash key t l b →
  SplitBucket hash key t = Done (tt, t') →
  let prefixMask := Z.shiftl 1 (depth_ b + 1) - 1 in
  let index := Z.land (hash key) (Z.shiftl 1 (global_depth_ t) - 1) in
  let addressPrefix := Z.land prefixMask index in
  let n := length (heap_ t) in
  (∀ i p, dir_ t !! i = Some p →
     dir_ t' !! i = Some
       (if decide (p = Some l) then
          if decide (Z.land (Z.of_nat i) prefixMask = addressPrefix)
          then Some (S n) else Some n
        else p)) ∧
  length (dir_ t') = length (dir_ t) ∧
  (Some l ∉ dir_ t') ∧
  num_buckets_ t' = num_buckets_ t + 1 ∧
  global_depth_ t' = global_depth_ t.
Proof.
  intros HI Ha Hrun prefixMask index addressPrefix n.
  pose proof Ha as (Hgd & Hdir & Hheap).
  pose proof (slot_bucket_ok _ _ _ _ HI (conj Hdir Hheap))
    as [Hdep Hsz Hle Hnd _ _].
  destruct (SplitBucket_Done key t t' l b Hrun Ha Hnd)
    as (Hd' & Eg & _ & En & Edir & _); [lia|].
  fold n in Edir.
  assert (prefixMask = Z.ones (depth_ b + 1)) as ->
    by (unfold prefixMask, Z.ones; lia).
  assert (index = hash key mod 2 ^ global_depth_ t) as Hindex.
  { unfold index. rewrite <-Z.land_ones by lia.
    f_equal; unfold Z.ones; lia. }
  assert (∀ i p, dir_ t !! i = Some p →
     dir_ t' !! i = Some
       (if decide (p = Some l) then
          if decide (Z.land (Z.of_nat i) (Z.ones (depth_ b + 1)) = addressPrefix)
          then Some (S n) else Some n
        else p)) as Hslots.
  { intros i p Hi. rewrite Edir, list_lookup_imap, Hi. simpl. f_equal.
    unfold split_slot. case_decide; [|done].
    pose proof (land_ones_low (depth_ b + 1) (Z.of_nat i)
                  (hash key mod 2 ^ global_depth_ t) ltac:(lia)) as Hiff.
    unfold addressPrefix. rewrite Hindex.
    repeat case_decide; tauto. }
  split_and!; try done.
  - by rewrite Edir, length_imap.
  - intros (i & Hi)%list_elem_of_lookup.
    rewrite Edir, list_lookup_imap in Hi.
    destruct (dir_ t !! i) as [p|] eqn:Hp; [|done]. simpl in Hi.
    destruct (Inv_lookup _ _ _ HI Hp) as (l0 & b0 & -> & _ & _ & Hl0).
    fold n in Hl0. unfold split_slot in Hi.
    assert (l < n)%nat by by eapply lookup_lt_Some.
    repeat case_decide; simplify_eq; lia.
Qed.

(** ** Buckets *)

(** X13.  [Bucket::Insert]: it refuses exactly when the key is not there and
    the entry count equals the capacity, and then changes nothing; when
    it accepts, a scan for the key stops at the new value, scans for
    other keys are as before, distinct keys stay distinct and a bucket
    within its capacity stays within it.  Capacity and depth are never
    touched. *)
Theorem Bucket_Insert_contract key value b :
  size_ (Bucket_Insert key value b).2 = size_ b ∧
  depth_ (Bucket_Insert key value b).2 = depth_ b ∧
  ((Bucket_Insert key value b).1 = false ↔
     (key ∉ (list_ b).*1) ∧ length (list_ b) = size_ b) ∧
  ((Bucket_Insert key value b).1 = false → (Bucket_Insert key value b).2 = b) ∧
  ((Bucket_Insert key value b).1 = true →
     (∀ x, find_list key x (list_ (Bucket_Insert key value b).2) = (true, value)) ∧
     (∀ k x, k ≠ key →
        find_list k x (list_ (Bucket_Insert key value b).2)
        = find_list k x (list_ b)) ∧
     (NoDup (list_ b).*1 → NoDup (list_ (Bucket_Insert key value b).2).*1) ∧
     ((length (list_ b) ≤ size_ b)%nat →
      (length (list_ (Bucket_Insert key value b).2) ≤ size_ b)%nat)).
Proof.
  destruct (Bucket_Insert key value b) as [[] b'] eqn:E; simpl.
  - destruct (Bucket_Insert_true _ _ _ _ E) as (? & ? & ? & ? & _ & ? & ?).
    split_and!; try done. split; [done|]. intros [Hn Hf].
    rewrite Bucket_Insert_full in E by done. congruence.
  - destruct (Bucket_Insert_false _ _ _ _ E) as (-> & ? & ?).
    split_and!; try done.
Qed.

(** X14.  [Bucket::Remove]: it returns [true] exactly when the key is there,
    drops one entry then and none otherwise, leaves scans for other keys
    as they were, and, the keys being distinct, leaves no entry for the
    key. *)
Theorem Bucket_Remove_contract key b :
  ((Bucket_Remove key b).1 = true ↔ key ∈ (list_ b).*1) ∧
  ((Bucket_Remove key b).1 = false → (Bucket_Remove key b).2 = b) ∧
  ((Bucket_Remove key b).1 = true →
     S (length (list_ (Bucket_Remove key b).2)) = length (list_ b)) ∧
  (∀ k x, k ≠ key →
     find_list k x (list_ (Bucket_Remove key b).2) = find_list k x (list_ b)) ∧
  (NoDup (list_ b).*1 → key ∉ (list_ (Bucket_Remove key b).2).*1) ∧
  size_ (Bucket_Remove key b).2 = size_ b ∧
  depth_ (Bucket_Remove key b).2 = depth_ b.
Proof.
  unfold Bucket_Remove.
  destruct (remove_list key (list_ b)) as [es|] eqn:E; simpl.
  - destruct (remove_list_Some _ _ _ E) as (Hin & _ & Hlen & Hnd & Ho).
    split_and!; [done|done|done|done|intros Hn; by apply Hnd|done|done].
  - apply remove_list_None in E.
    split_and!; [split; [done|intros Hin; done]|done..].
Qed.

(** ** Short runs of [Insert] *)

Lemma Insert_appends fuel key value t l b :
  addressed hash key t l b →
  key ∉ (list_ b).*1 → (length (list_ b) < size_ b)%nat →
  Insert hash (S fuel) key value t
  = Done (tt, set_heap
           (<[l := mkBucket (size_ b) (depth_ b) (list_ b ++ [(key, value)])]>
              (heap_ t)) t).
Proof.
  intros Ha Hn Hlt.
  destruct (addressed_Done _ _ _ _ Ha) as (index & Hi & Hl & _).
  pose proof Ha as (_ & _ & Hheap).
  unfold Insert. rewrite (bind_eq _ _ _ _ _ Hi), (bind_eq _ _ _ _ _ Hl).
  simpl. erewrite bind_eq; [|apply call_Insert_Done; eauto].
  by rewrite Bucket_Insert_fresh.
Qed.

(** X15.  Room in the addressed bucket: [Insert] of a new key returns at the
    first test of its loop, having appended the pair to that bucket and
    changed nothing else.  This holds in every state. *)
Theorem Insert_with_room fuel key value t l b :
  addressed hash key t l b →
  key ∉ (list_ b).*1 → (length (list_ b) < size_ b)%nat →
  Insert hash (S fuel) key value t
  = Done (tt, set_heap
           (<[l := mkBucket (size_ b) (depth_ b) (list_ b ++ [(key, value)])]>
              (heap_ t)) t).
Proof. apply Insert_appends. Qed.

(** X16.  A table built with bucket size 0 accepts nothing: its buckets are
    full while empty, so [Insert] splits without end. *)
Theorem Insert_zero_capacity fuel key value t :
  reachable hash t → bucket_size_ t = 0%nat →
  Insert hash fuel key value t = OutOfFuel ∨
  Insert hash fuel key value t = Undefined.
Proof.
  intros [HI Hgd]%reachable_Inv H0. apply Insert_clustered; [done|].
  destruct (Inv_addressed key t HI Hgd) as (l & b & Ha).
  pose proof Ha as (_ & Hdir & Hheap).
  pose proof (slot_bucket_ok _ _ _ _ HI (conj Hdir Hheap))
    as [_ Hsz Hle _ _ _].
  assert (list_ b = []) as Hnil.
  { apply length_zero_iff_nil. lia. }
  exists l, b. rewrite Hnil. split_and!; try done.
  - apply not_elem_of_nil.
  - simpl. lia.
  - intros k []%elem_of_nil.
Qed.

(** X17.  The table as constructed: one slot, global depth 0, one bucket of
    local depth 0, and no key in it. *)
Theorem new_table_empty (bucket_size : nat) key value :
  Find hash key value (new_table bucket_size)
    = Done ((false, value), new_table bucket_size) ∧
  Remove hash key (new_table bucket_size : Table)
    = Done (false, new_table bucket_size) ∧
  GetGlobalDepth (new_table bucket_size : Table)
    = Done (0, new_table bucket_size) ∧
  GetLocalDepth 0 (new_table bucket_size : Table)
    = Done (0, new_table bucket_size) ∧
  GetNumBuckets (new_table bucket_size : Table)
    = Done (1, new_table bucket_size).
Proof.
  assert (addressed hash key (new_table bucket_size : Table) 0
            (Bucket_new bucket_size 0)) as Ha.
  { split; [simpl; lia|]. simpl. rewrite Z.mod_1_r. by split. }
  split_and!; try done.
  - apply Find_Done. by eexists _, _.
  - apply Remove_Done. by eexists _, _.
Qed.

(** ** The bucket counter *)

Lemma bucket_count_ext (d d' : list ptr) :
  (∀ p, p ∈ d ↔ p ∈ d') → length (remove_dups d) = length (remove_dups d').
Proof.
  intros Hel. apply Permutation_length, NoDup_Permutation;
    [apply NoDup_remove_dups..|].
  intros p. by rewrite !elem_of_remove_dups.
Qed.

Lemma length_remove_dups_le (d : list ptr) :
  (length (remove_dups d) ≤ length d)%nat.
Proof.
  induction d as [|p d IH]; [done|]. simpl.
  destruct (decide_rel elem_of p d); simpl; lia.
Qed.

Lemma bucket_count_grown t : bucket_count (grown t) = bucket_count t.
Proof.
  unfold bucket_count. simpl. apply bucket_count_ext.
  intros p. rewrite elem_of_app. tauto.
Qed.

(** The slot of the split bucket that differs from [index] in the bit
    the split adds. *)
Lemma other_half_slot depth g index :
  0 ≤ depth < g → 0 ≤ index < 2 ^ g →
  let j := (index + 2 ^ depth) mod 2 ^ g in
  0 ≤ j < 2 ^ g ∧ same_low depth j index ∧ ¬ same_low (depth + 1) j index.
Proof.
  intros Hd Hi j. pose proof (pow2_pos depth ltac:(lia)) as Hp.
  split; [apply Z.mod_pos_bound, pow2_pos; lia|].
  unfold same_low, j. rewrite !mod_mod_pow2 by lia. split.
  - rewrite <-(Z.mul_1_l (2 ^ depth)) at 1. apply Z.mod_add. lia.
  - assert ((index + 2 ^ depth) mod 2 ^ depth = index mod 2 ^ depth) as E1.
    { rewrite <-(Z.mul_1_l (2 ^ depth)) at 1. apply Z.mod_add. lia. }
    assert ((index + 2 ^ depth) / 2 ^ depth = index / 2 ^ depth + 1) as E2.
    { replace (index + 2 ^ depth) with (index + 1 * 2 ^ depth) by lia.
      apply Z.div_add. lia. }
    rewrite !mod_pow2_succ, E1, E2 by lia.
    pose proof (Z.mod_pos_bound (index / 2 ^ depth) 2 eq_refl).
    pose proof (Z.mod_pos_bound (index / 2 ^ depth + 1) 2 eq_refl).
    assert ((index / 2 ^ depth + 1) mod 2 ≠ (index / 2 ^ depth) mod 2).
    { rewrite Z.add_mod by lia.
      assert ((index / 2 ^ depth) mod 2 = 0 ∨ (index / 2 ^ depth) mod 2 = 1)
        as [->| ->] by lia; done. }
    nia.
Qed.

Lemma bucket_count_SplitBucket key t t' l b :
  Inv hash t → addressed hash key t l b → depth_ b < global_depth_ t →
  SplitBucket hash key t = Done (tt, t') →
  bucket_count t' = S (bucket_count t).
Proof.
  intros HI Ha Hlt Hrun. pose proof Ha as (Hgd & Hdir & Hheap).
  pose proof (slot_bucket_ok _ _ _ _ HI (conj Hdir Hheap))
    as [Hdep Hsz Hle Hnd Hsl _].
  destruct (SplitBucket_Done key t t' l b Hrun Ha Hnd)
    as (Hd' & _ & _ & _ & Edir & _); [lia|].
  set (index := hash key mod 2 ^ global_depth_ t) in *.
  set (d := depth_ b + 1) in *. set (n := length (heap_ t)) in *.
  pose proof (index_range key (global_depth_ t) ltac:(lia)) as Hidx.
  fold index in Hidx.
  assert (l < n)%nat as Hln by by eapply lookup_lt_Some.
  assert (∀ p, p ∈ dir_ t → ∃ l0, p = Some l0 ∧ (l0 < n)%nat) as Hvalid.
  { intros p (i & Hi)%list_elem_of_lookup.
    destruct (Inv_lookup _ _ _ HI Hi) as (l0 & _ & -> & _ & _ & ?). eauto. }
  (* the slot of the other half *)
  destruct (other_half_slot (depth_ b) (global_depth_ t) index)
    as (Hj & Hjlow & Hjhigh); [lia|done|].
  set (j := (index + 2 ^ depth_ b) mod 2 ^ global_depth_ t) in *.
  destruct HI as [_ Hlen _].
  assert (dir_ t !! Z.to_nat j = Some (Some l)) as Hjl.
  { apply Hsl; [lia|]. by rewrite !Z2Nat.id by lia. }
  assert (∀ p, p ∈ dir_ t' ↔
               p ∈ Some n :: Some (S n) :: filter (λ q, q ≠ Some l) (dir_ t))
    as Hel.
  { intros p. rewrite Edir, !elem_of_cons, list_elem_of_filter. split.
    - intros (i & Hi)%list_elem_of_lookup. rewrite list_lookup_imap in Hi.
      destruct (dir_ t !! i) as [q|] eqn:Hq; [|done]. simpl in Hi.
      unfold split_slot in Hi. repeat case_decide; simplify_eq; auto.
      right. right. split; [done|]. apply list_elem_of_lookup. eauto.
    - intros [->|[->|[Hne Hin]]]; apply list_elem_of_lookup.
      + exists (Z.to_nat j). rewrite list_lookup_imap, Hjl. simpl.
        unfold split_slot. rewrite decide_True by done.
        rewrite decide_False; [done|]. by rewrite Z2Nat.id by lia.
      + exists (Z.to_nat index). rewrite list_lookup_imap, Hdir. simpl.
        unfold split_slot. rewrite decide_True by done.
        rewrite decide_True; [done|]. by rewrite Z2Nat.id by lia.
      + apply list_elem_of_lookup in Hin as (i & Hi). exists i.
        rewrite list_lookup_imap, Hi. simpl. unfold split_slot.
        by rewrite decide_False. }
  unfold bucket_count. rewrite (bucket_count_ext _ _ Hel).
  assert (∀ q, q ∈ filter (λ q, q ≠ Some l) (dir_ t) →
               q ≠ Some n ∧ q ≠ Some (S n)) as Hfresh.
  { intros q [_ Hin]%list_elem_of_filter.
    destruct (Hvalid _ Hin) as (l0 & -> & ?). split; intros [=]; lia. }
  assert (length (remove_dups (dir_ t)) =
          S (length (remove_dups (filter (λ q, q ≠ Some l) (dir_ t))))) as ->.
  { change (S (length ?x)) with (length (Some l :: x)).
    apply Permutation_length, NoDup_Permutation.
    - apply NoDup_remove_dups.
    - apply NoDup_cons. split; [|apply NoDup_remove_dups].
      rewrite elem_of_remove_dups, list_elem_of_filter. tauto.
    - intros p. rewrite elem_of_cons, !elem_of_remove_dups, list_elem_of_filter.
      split.
      + intros Hin. destruct (decide (p = Some l)); auto.
      + intros [->|[_ ?]]; [|done]. apply list_elem_of_lookup. eauto. }
  change (S (S (length ?x))) with (length (Some n :: Some (S n) :: x)).
  apply Permutation_length, NoDup_Permutation.
  - apply NoDup_remove_dups.
  - apply NoDup_cons. split.
    + rewrite elem_of_cons, elem_of_remove_dups. intros [[=]|Hin]; [lia|].
      by destruct (Hfresh _ Hin).
    + apply NoDup_cons. split; [|apply NoDup_remove_dups].
      rewrite elem_of_remove_dups. intros Hin. by destruct (Hfresh _ Hin).
  - intros p. rewrite elem_of_remove_dups, !elem_of_cons, !elem_of_remove_dups.
    done.
Qed.

Lemma Insert_bucket_count fuel key value t t' :
  Inv hash t → Z.of_nat (bucket_count t) = num_buckets_ t →
  Insert hash fuel key value t = Done (tt, t') →
  Z.of_nat (bucket_count t') = num_buckets_ t'.
Proof.
  intros HI Hc H.
  set (P := λ t0 : Table,
    Inv hash t0 ∧ Z.of_nat (bucket_count t0) = num_buckets_ t0).
  assert (P t') as [_ ?]; [|done].
  refine (proj1 (Insert_keeps P P fuel key value t t' _ _ _ _ _ H)).
  - by intros t0 [? _].
  - intros t0 l b b' [HI0 Hc0] Ha E. split; [by eapply Bucket_Insert_Inv|done].
  - intros t0 l b [HI0 Hc0] Ha _ _ Hlt.
    split; [by apply grown_Inv|]. by rewrite bucket_count_grown.
  - intros t0 t0' l b [HI0 Hc0] Ha _ Hlt Hsp.
    split; [exact (SplitBucket_Inv _ _ _ _ _ HI0 Ha Hlt Hsp)|].
    rewrite (bucket_count_SplitBucket _ _ _ _ _ HI0 Ha Hlt Hsp).
    pose proof Ha as (_ & Hdir & Hheap).
    pose proof (slot_bucket_ok _ _ _ _ HI0 (conj Hdir Hheap))
      as [_ _ Hle Hnd _ _].
    destruct (SplitBucket_Done key t0 t0' l b Hsp Ha Hnd)
      as (_ & _ & _ & En & _); [|lia].
    pose proof (slot_bucket_ok _ _ _ _ HI0 (conj Hdir Hheap)) as [_ Hsz _ _ _ _].
    lia.
  - done.
Qed.

Lemma reachable_bucket_count t :
  reachable hash t → Z.of_nat (bucket_count t) = num_buckets_ t.
Proof.
  induction 1 as [n|t fuel key value t' Hr IH H|t key r t' _ IH H
                 |t key value r t' _ IH H|t r t' _ IH H|t i r t' _ IH H
                 |t r t' _ IH H].
  - done.
  - eapply Insert_bucket_count; [|done..]. by apply reachable_Inv.
  - apply Remove_Done in H as (l & b & _ & [= _ ->]). exact IH.
  - apply Find_Done in H as (l & b & _ & [= _ ->]). exact IH.
  - apply gets_Done in H as [= _ ->]. exact IH.
  - unfold GetLocalDepth in H. apply bind_Done in H as (p & t1 & Hl & H).
    apply load_dir_Done in Hl as (? & _ & _ & [= <- <-]).
    destruct p as [l|]; [|done].
    apply call_GetDepth_Done in H as (b & _ & [= _ <-]). exact IH.
  - apply gets_Done in H as [= _ ->]. exact IH.
Qed.

(** X18.  [GetNumBuckets] is right: in every reachable state it returns the
    number of distinct buckets the directory refers to, which is at most
    the number of slots. *)
Theorem GetNumBuckets_counts t :
  reachable hash t →
  GetNumBuckets t = Done (Z.of_nat (bucket_count t), t) ∧
  1 ≤ num_buckets_ t ≤ 2 ^ global_depth_ t.
Proof.
  intros Hr. pose proof (reachable_bucket_count t Hr) as Hc.
  apply reachable_Inv in Hr as [HI Hgd].
  split; [unfold GetNumBuckets, gets; by rewrite Hc|].
  rewrite <-Hc, <-(Inv_length _ _ HI). unfold bucket_count. split.
  - pose proof (pow2_pos (global_depth_ t) ltac:(lia)) as Hpos.
    rewrite <-(Inv_length _ _ HI) in Hpos.
    destruct (lookup_lt_is_Some_2 (dir_ t) 0) as [p Hp]; [lia|].
    assert (p ∈ remove_dups (dir_ t)) as Hin.
    { apply elem_of_remove_dups, list_elem_of_lookup. eauto. }
    destruct (remove_dups (dir_ t)); [by apply elem_of_nil in Hin|simpl; lia].
  - apply inj_le, length_remove_dups_le.
Qed.

(** ** When [Insert] returns *)

Lemma deref_eq l b t : heap_ t !! l = Some b → deref (Some l) t = Done (b, t).
Proof. intros Hb. unfold deref. by rewrite Hb. Qed.

Lemma store_eq l b t :
  (l < length (heap_ t))%nat →
  store (Some l) b t = Done (tt, set_heap (<[l := b]> (heap_ t)) t).
Proof. intros Hl. unfold store. by rewrite decide_True. Qed.

(** Runs the next statement of monadic code in the goal. *)
Ltac fwd tac :=
  apply bind_Done; eexists _, _; split; [tac|]; simpl_table.

Lemma SplitBucket_runs key t l b :
  Inv hash t → addressed hash key t l b →
  depth_ b < global_depth_ t → num_buckets_ t < INT_MAX →
  ∃ t', SplitBucket hash key t = Done (tt, t').
Proof.
  intros HI Ha Hlt Hnum. pose proof Ha as (Hgd & Hdir & Hheap).
  pose proof (slot_bucket_ok _ _ _ _ HI (conj Hdir Hheap))
    as [Hdep Hsz Hle Hnd _ _].
  destruct (addressed_Done _ _ _ _ Ha) as (index & Hi & Hl & _).
  assert (l < length (heap_ t))%nat as Hln by by eapply lookup_lt_Some.
  set (b' := mkBucket (size_ b) (depth_ b + 1) (list_ b)).
  set (h1 := <[l := b']> (heap_ t)).
  assert (length h1 = length (heap_ t)) as Hlen1 by apply length_insert.
  assert (h1 !! l = Some b') as Hh1 by by apply list_lookup_insert_eq.
  set (nb1 := Bucket_new (bucket_size_ t) (depth_ b + 1) : Bucket).
  destruct (SplitBucket_items_loop (length (heap_ t)) (S (length (heap_ t)))
              (Z.ones (depth_ b + 1)) (Z.land (Z.ones (depth_ b + 1)) index)
              (list_ b)
              (set_num_buckets (num_buckets_ t + 1)
                 (set_dir (imap (λ (j : nat) (p : ptr),
                     if decide (Z.land (Z.of_nat j) (Z.ones (depth_ b + 1))
                                ≠ Z.land (Z.ones (depth_ b + 1)) index
                                ∧ p = Some l)
                     then Some (length (heap_ t))
                     else if decide (Z.land (Z.of_nat j) (Z.ones (depth_ b + 1))
                                     = Z.land (Z.ones (depth_ b + 1)) index
                                     ∧ p = Some l)
                     then Some (S (length (heap_ t))) else p) (dir_ t))
                    (set_heap ((h1 ++ [nb1]) ++ [nb1]) t)))
              nb1 nb1)
    as (h & Hrun & _); simpl; try done; try lia.
  { rewrite <-(assoc_L (++)). by apply list_lookup_middle. }
  { apply list_lookup_middle. rewrite length_app. simpl. lia. }
  { intros. split; apply not_elem_of_nil. }
  eexists. unfold SplitBucket.
  fwd ltac:(exact Hi). fwd ltac:(exact Hl).
  fwd ltac:(unfold call_IncrementDepth;
            fwd ltac:(by apply deref_eq);
            fwd ltac:(apply lift_Done; eexists; split;
                      [apply IncrementDepth_Done; split; [|reflexivity];
                       unfold INT_MAX; lia|reflexivity]);
            by apply store_eq).
  fold b' h1.
  fwd ltac:(apply call_GetDepth_Done; eexists; split; [exact Hh1|reflexivity]).
  fwd ltac:(reflexivity). fwd ltac:(reflexivity).
  fwd ltac:(apply call_GetDepth_Done; eexists;
            split; [by apply lookup_app_l_Some|reflexivity]).
  fwd ltac:(reflexivity).
  fwd ltac:(apply call_GetDepth_Done; eexists;
            split; [by do 2 apply lookup_app_l_Some|reflexivity]).
  fwd ltac:(apply lift_Done; eexists; split;
            [apply int_mask_Done; split; [unfold b'; simpl; lia|reflexivity]
            |reflexivity]).
  fwd ltac:(reflexivity).
  fwd ltac:(exact (SplitBucket_dir_loop (set_heap ((h1 ++ [nb1]) ++ [nb1]) t)
                     _ _ _ _ _ [] (dir_ t))).
  fwd ltac:(reflexivity).
  fwd ltac:(apply lift_Done; eexists; split;
            [apply int_incr_Done; split; [done|reflexivity]|reflexivity]).
  fwd ltac:(reflexivity).
  fwd ltac:(unfold call_GetItems; fwd ltac:(apply deref_eq; simpl;
              by do 2 apply lookup_app_l_Some); reflexivity).
  rewrite Hlen1, length_app, Hlen1, Nat.add_1_r. exact Hrun.
Qed.

Lemma num_buckets_small t :
  Inv hash t → 0 ≤ global_depth_ t < 31 →
  Z.of_nat (bucket_count t) = num_buckets_ t → num_buckets_ t < INT_MAX.
Proof.
  intros HI Hgd <-. unfold bucket_count.
  pose proof (length_remove_dups_le (dir_ t)) as Hle.
  apply inj_le in Hle. rewrite (Inv_length _ _ HI) in Hle.
  assert (2 ^ global_depth_ t ≤ 2 ^ 30) by (apply Z.pow_le_mono_r; lia).
  unfold INT_MAX. lia.
Qed.

Lemma filter_filter_low d D key (es : list (K * V)) :
  0 ≤ d ≤ D →
  filter (λ kv, same_low D (hash kv.1) (hash key))
    (filter (λ kv, same_low d (hash kv.1) (hash key)) es)
  = filter (λ kv, same_low D (hash kv.1) (hash key)) es.
Proof.
  intros Hd. induction es as [|[k v] es IH]; [done|].
  rewrite !filter_cons. simpl.
  destruct (decide (same_low D (hash k) (hash key))) as [HD|HD].
  - rewrite decide_True by by eapply same_low_le.
    rewrite filter_cons. simpl. rewrite decide_True by done. by rewrite IH.
  - case_decide; [|done]. rewrite filter_cons. simpl.
    by rewrite decide_False.
Qed.

Lemma Insert_loop_S fuel key value bucket :
  Insert_loop hash (S fuel) key value bucket =
  bind (call_Insert bucket key value) (λ ok,
    if ok then ret tt
    else
      bind (gets global_depth_) (λ gd,
      bind (call_GetDepth bucket) (λ d,
      bind (if decide (gd = d) then
              bind (lift (int_incr gd)) (λ gd',
              bind (modify (set_global_depth gd')) (λ _, DoubleDirectory))
            else ret tt) (λ _,
      bind (SplitBucket hash key) (λ _,
      bind (IndexOf hash key) (λ index,
      bind (load_dir index) (λ bucket',
      Insert_loop hash fuel key value bucket'))))))).
Proof. done. Qed.

(** The loop ends within [D - depth + 1] iterations when fewer entries
    of the addressed bucket than its capacity agree with the key on [D]
    hash bits. *)
Lemma Insert_loop_returns key value D (n : nat) : ∀ t l b,
  Inv hash t → Z.of_nat (bucket_count t) = num_buckets_ t →
  addressed hash key t l b →
  depth_ b ≤ D ≤ 30 → D - depth_ b ≤ Z.of_nat n →
  (length (filter (λ kv, same_low D (hash kv.1) (hash key)) (list_ b))
   < size_ b)%nat →
  ∃ t', Insert_loop hash (S n) key value (Some l) t = Done (tt, t').
Proof.
  induction n as [|n IH]; intros t l b HI Hc Ha HD Hn Hroom;
    pose proof Ha as (Hgd & Hdir & Hheap);
    pose proof (slot_bucket_ok _ _ _ _ HI (conj Hdir Hheap))
      as [Hdep Hsz Hle Hnd _ Hk];
    rewrite Insert_loop_S;
    (erewrite (bind_eq (call_Insert _ _ _)); [|apply call_Insert_Done; eauto]);
    destruct (Bucket_Insert key value b) as [[] b1] eqn:E; cbn [fst snd];
    try (eexists; reflexivity);
    apply Bucket_Insert_false in E as (-> & Hnin & Hfull);
    rewrite list_insert_id, set_heap_id by done;
    (assert (depth_ b < D) as HdD;
     [destruct (decide (depth_ b < D)) as [|Hge]; [done|];
      exfalso; assert (D = depth_ b) as -> by lia;
      rewrite filter_all in Hroom; [lia|];
      intros [k v] Hin; simpl;
      apply (same_low_trans _ _
               (Z.of_nat (Z.to_nat (hash key mod 2 ^ global_depth_ t))));
      [apply Hk, list_elem_of_fmap; by exists (k, v)
      |apply same_low_sym; by eapply addressed_class]|]).
  { lia. }
  (* one iteration, then the induction hypothesis *)
  assert (∃ t2, (if decide (global_depth_ t = depth_ b)
                 then bind (lift (int_incr (global_depth_ t)))
                        (λ gd', bind (modify (set_global_depth gd'))
                                  (λ _, DoubleDirectory))
                 else ret tt) t = Done (tt, t2) ∧
                Inv hash t2 ∧ Z.of_nat (bucket_count t2) = num_buckets_ t2 ∧
                addressed hash key t2 l b ∧ depth_ b < global_depth_ t2)
    as (t2 & Hgrow & HI2 & Hc2 & Ha2 & Hlt2).
  { case_decide as Hdec.
    - exists (grown t). split_and!.
      + unfold int_incr. rewrite decide_True by (unfold INT_MAX; lia).
        erewrite bind_eq; [|reflexivity]. erewrite bind_eq; [|reflexivity].
        by rewrite DoubleDirectory_Done.
      + by apply grown_Inv.
      + by rewrite bucket_count_grown.
      + apply addressed_grown; [done..|lia].
      + simpl. lia.
    - exists t. split_and!; try done. lia. }
  pose proof Ha2 as (Hgd2 & Hdir2 & Hheap2).
  pose proof (slot_bucket_ok _ _ _ _ HI2 (conj Hdir2 Hheap2))
    as [_ Hsz2 Hle2 Hnd2 _ _].
  destruct (SplitBucket_runs key t2 l b HI2 Ha2 Hlt2) as [t3 Hsp].
  { by apply num_buckets_small. }
  pose proof (SplitBucket_Inv _ _ _ _ _ HI2 Ha2 Hlt2 Hsp) as HI3.
  destruct (SplitBucket_addressed _ _ _ _ _ _ _ _ HI2 Ha2 Hlt2 Hsp Ha2)
    as [[? _]|(_ & l' & b' & Ha3 & Hsz3 & Hd3 & Hl3)]; [done|].
  destruct (addressed_Done _ _ _ _ Ha3) as (index3 & Hi3 & Hl3' & _).
  destruct (IH t3 l' b') as [t' Hloop]; try done.
  - rewrite (bucket_count_SplitBucket _ _ _ _ _ HI2 Ha2 Hlt2 Hsp).
    destruct (SplitBucket_Done key t2 t3 l b Hsp Ha2 Hnd2)
      as (_ & _ & _ & En & _); lia.
  - lia.
  - lia.
  - rewrite Hl3, filter_filter_low by lia. congruence.
  - exists t'.
    erewrite bind_eq; [|reflexivity].
    erewrite bind_eq; [|apply call_GetDepth_Done; eauto].
    erewrite bind_eq; [|exact Hgrow].
    erewrite bind_eq; [|exact Hsp].
    erewrite bind_eq; [|exact Hi3]. erewrite bind_eq; [|exact Hl3'].
    exact Hloop.
Qed.

(** X19.  [Insert] returns, within 32 iterations of its loop, whenever for
    some [D] up to 30 fewer entries of the addressed bucket than the
    bucket size have the [D] low hash bits of the inserted key: splitting
    down to depth [D] at the latest makes room. *)
Theorem Insert_returns key value t l b D :
  reachable hash t → addressed hash key t l b → 0 ≤ D ≤ 30 →
  (length (filter (λ kv, same_low D (hash kv.1) (hash key)) (list_ b))
   < bucket_size_ t)%nat →
  ∃ fuel t', (fuel ≤ 32)%nat ∧
    Insert hash fuel key value t = Done (tt, t').
Proof.
  intros Hr Ha HD Hroom.
  pose proof (reachable_bucket_count t Hr) as Hc.
  apply reachable_Inv in Hr as [HI Hgd].
  pose proof Ha as (_ & Hdir & Hheap).
  pose proof (slot_bucket_ok _ _ _ _ HI (conj Hdir Hheap))
    as [Hdep Hsz _ _ _ _].
  destruct (addressed_Done _ _ _ _ Ha) as (index & Hi & Hl & _).
  set (D' := Z.max D (depth_ b)).
  destruct (Insert_loop_returns key value D' (Z.to_nat (D' - depth_ b)) t l b)
    as [t' Hrun]; try done; try lia.
  - rewrite <-(filter_filter_low D D') by lia.
    eapply Nat.le_lt_trans; [apply length_filter|]. by rewrite Hsz.
  - exists (S (Z.to_nat (D' - depth_ b))), t'. split; [lia|].
    unfold Insert. by rewrite (bind_eq _ _ _ _ _ Hi), (bind_eq _ _ _ _ _ Hl).
Qed.

(** X20.  [IndexOf] in a reachable state returns the hash masked to the
    directory, which is an index of a slot. *)
Theorem IndexOf_in_range key t :
  reachable hash t →
  ∃ i, IndexOf hash key t = Done (i, t) ∧
       i = Z.land (hash key) (Z.of_nat (length (dir_ t)) - 1) ∧
       0 ≤ i < Z.of_nat (length (dir_ t)).
Proof.
  intros [HI Hgd]%reachable_Inv. rewrite (Inv_length _ _ HI).
  exists (hash key mod 2 ^ global_depth_ t). split; [|split].
  - by apply IndexOf_Done.
  - rewrite <-Z.land_ones by lia. f_equal. unfold Z.ones.
    rewrite Z.shiftl_1_l. lia.
  - apply index_range. lia.
Qed.

(** X21.  After a [Remove] that found its key, an [Insert] of that key has
    room: it returns at the first test of its loop and leaves the
    directory, the global depth and the bucket counter alone. *)
Theorem Remove_then_Insert key value fuel t t1 :
  reachable hash t → Remove hash key t = Done (true, t1) →
  ∃ t2, Insert hash (S fuel) key value t1 = Done (tt, t2) ∧
        dir_ t2 = dir_ t ∧ global_depth_ t2 = global_depth_ t ∧
        num_buckets_ t2 = num_buckets_ t ∧
        ∀ x, Find hash key x t2 = Done ((true, value), t2).
Proof.
  intros [HI _]%reachable_Inv (l & b & Ha & [= Hr ->])%Remove_Done.
  pose proof Ha as (_ & Hdir & Hheap).
  pose proof (slot_bucket_ok _ _ _ _ HI (conj Hdir Hheap))
    as [_ Hsz Hle Hnd _ _].
  destruct (Bucket_Remove key b) as [[] b'] eqn:E; [|done]. simpl.
  destruct (Bucket_Remove_true _ _ _ E)
    as (Hsz' & Hdp' & Hin & _ & _ & Hnd' & _).
  destruct (Hnd' Hnd) as [_ Hnin].
  assert (S (length (list_ b')) = length (list_ b)) as Hlen.
  { unfold Bucket_Remove in E.
    destruct (remove_list key (list_ b)) as [es|] eqn:Er; [|done].
    injection E as <-. by destruct (remove_list_Some _ _ _ Er) as (_ & _ & ? & _). }
  pose proof (addressed_set_heap key t l b b' Ha) as Ha'.
  eexists. split; [apply (Insert_appends fuel key value _ l b' Ha' Hnin); lia|].
  simpl. split_and!; try done.
  intros x. apply Find_Done. eexists _, _.
  split; [exact (addressed_set_heap key _ l b' _ Ha')|].
  simpl. rewrite find_list_app_absent by done. simpl. by rewrite decide_True.
Qed.


(** X22.  [Bucket::Find]: it returns [true] exactly when the key is in the
    bucket, then with the value of the first entry for the key, which
    with distinct keys is the key's only entry; otherwise it leaves the
    caller's variable as it was. *)
Theorem Bucket_Find_contract key value b :
  ((Bucket_Find key value b).1 = true ↔ key ∈ (list_ b).*1) ∧
  (∀ v, Bucket_Find key value b = (true, v) ↔ first_entry key v (list_ b)) ∧
  ((Bucket_Find key value b).1 = false → (Bucket_Find key value b).2 = value) ∧
  (NoDup (list_ b).*1 →
   ∀ v, (key, v) ∈ list_ b → Bucket_Find key value b = (true, v)).
Proof.
  unfold Bucket_Find. split_and!.
  - destruct (find_list key value (list_ b)) as [[] v] eqn:Hf; simpl.
    + apply find_list_true in Hf as (l1 & l2 & -> & _). split; [|done].
      intros _. rewrite fmap_app, elem_of_app. right. apply list_elem_of_here.
    + apply find_list_false in Hf as [Hn _]. split; [done|]. by intros ?.
  - intros v. apply find_list_true.
  - destruct (find_list key value (list_ b)) as [[] v] eqn:Hf; simpl; [done|].
    intros _. by apply find_list_false in Hf as [_ ->].
  - intros Hnd v Hin. apply find_list_true.
    apply list_elem_of_split in Hin as (l1 & l2 & Hl). exists l1, l2.
    split; [done|]. rewrite Hl, fmap_app in Hnd.
    apply NoDup_app in Hnd as (_ & Hd & _). intros Hk.
    apply (Hd _ Hk). simpl. apply list_elem_of_here.
Qed.

End Proofs.

(** * The instance [ExtendibleHashTable<int, int>] at work *)

Lemma table_of_reachable n kvs : reachable int_hash (table_of n kvs).
Proof.
  unfold table_of. generalize (reachable_new int_hash (V := Z) n).
  generalize (new_table n : Table Z Z).
  induction kvs as [|[k v] kvs IH]; intros t Ht; [done|].
  simpl. apply IH.
  destruct (Insert int_hash 64 k v t) as [[[] t']| | |] eqn:E; simpl; try done.
  by eapply reachable_Insert.
Qed.

Lemma Insert_Find_round_trip_witness :
  reachable int_hash example_table ∧
  Insert int_hash 8 16 14 example_table
    = Done (tt, table_of 2 [(0, 10); (4, 11); (8, 12); (3, 13); (16, 14)]) ∧
  ∀ x, Find int_hash 16 x
         (table_of 2 [(0, 10); (4, 11); (8, 12); (3, 13); (16, 14)])
       = Done ((true, 14),
               table_of 2 [(0, 10); (4, 11); (8, 12); (3, 13); (16, 14)]).
Proof.
  assert (reachable int_hash example_table) as Hr by apply table_of_reachable.
  assert (Insert int_hash 8 16 14 example_table
    = Done (tt, table_of 2 [(0, 10); (4, 11); (8, 12); (3, 13); (16, 14)]))
    as Hi by (vm_compute; reflexivity).
  split; [exact Hr|]. split; [exact Hi|].
  exact (Insert_Find_round_trip int_hash 8 16 14 example_table _ Hr Hi).
Defined.

Lemma coverage_witness :
  reachable int_hash example_table ∧
  slot example_table 1 1 (mkBucket 2 1 [(3, 13)]) ∧
  Z.of_nat (slot_count 1 example_table) = 2 ^ (3 - 1).
Proof.
  assert (reachable int_hash example_table) as Hr by apply table_of_reachable.
  assert (slot example_table 1 1 (mkBucket 2 1 [(3, 13)])) as Hs
    by (split; vm_compute; reflexivity).
  split; [exact Hr|]. split; [exact Hs|].
  exact (coverage int_hash example_table 1 1 _ Hr Hs).
Defined.




Lemma SplitBucket_redistributes_witness :
  let t := grown (table_of 2 [(0, 10); (1, 11)]) in
  let t' := state_after (SplitBucket int_hash 2 t) t in
  Inv int_hash t ∧
  addressed int_hash 2 t 0 (mkBucket 2 0 [(0, 10); (1, 11)]) ∧
  SplitBucket int_hash 2 t = Done (tt, t') ∧
  ∃ loBucket hiBucket,
    heap_ t' !! 1%nat = Some loBucket ∧
    heap_ t' !! 2%nat = Some hiBucket ∧
    depth_ loBucket = 1 ∧ depth_ hiBucket = 1 ∧
    list_ hiBucket =
      filter (λ kv, Z.land (int_hash kv.1) 1 = 0) [(0, 10); (1, 11)] ∧
    list_ loBucket =
      filter (λ kv, Z.land (int_hash kv.1) 1 ≠ 0) [(0, 10); (1, 11)] ∧
    list_ hiBucket ++ list_ loBucket ≡ₚ [(0, 10); (1, 11)].
Proof.
  intros t t'.
  assert (Inv int_hash t) as HI
    by (apply grown_Inv, reachable_Inv, table_of_reachable).
  assert (addressed int_hash 2 t 0 (mkBucket 2 0 [(0, 10); (1, 11)])) as Ha.
  { split; [|split; vm_compute; reflexivity].
    change (global_depth_ t) with 1. lia. }
  assert (SplitBucket int_hash 2 t = Done (tt, t')) as Hs
    by (vm_compute; reflexivity).
  split; [exact HI|]. split; [exact Ha|]. split; [exact Hs|].
  exact (SplitBucket_redistributes int_hash 2 t t' 0 _ HI Ha Hs).
Defined.

Lemma directory_length_witness :
  reachable int_hash example_table ∧
  Z.of_nat (length (dir_ example_table)) = 2 ^ global_depth_ example_table.
Proof.
  assert (reachable int_hash example_table) as Hr by apply table_of_reachable.
  split; [exact Hr|]. exact (directory_length int_hash example_table Hr).
Defined.

Lemma Insert_present_overwrites_witness :
  let t := table_of 2 [(0, 10); (4, 11)] in
  Find int_hash 4 0 t = Done ((true, 11), t) ∧
  reachable int_hash t ∧
  ∃ t',
    Insert int_hash 1 4 99 t = Done (tt, t') ∧
    (∀ y, Find int_hash 4 y t' = Done ((true, 99), t')) ∧
    global_depth_ t' = global_depth_ t ∧
    dir_ t' = dir_ t ∧
    length (heap_ t') = length (heap_ t) ∧
    num_buckets_ t' = num_buckets_ t ∧
    GetNumBuckets t' = Done (num_buckets_ t, t') ∧
    (∃ l b l1 l2,
       addressed int_hash 4 t l b ∧
       list_ b = l1 ++ (4, 11) :: l2 ∧ (4 ∉ l1.*1) ∧
       t' = set_heap
              (<[l := mkBucket (size_ b) (depth_ b) (l1 ++ (4, 99) :: l2)]>
                 (heap_ t)) t) ∧
    (reachable int_hash t →
     ∀ i l b v, slot t' i l b → (4, v) ∈ list_ b → v = 99).
Proof.
  intros t.
  assert (Find int_hash 4 0 t = Done ((true, 11), t)) as Hf
    by (vm_compute; reflexivity).
  split; [exact Hf|]. split; [apply table_of_reachable|].
  exact (Insert_present_overwrites int_hash 0 4 11 99 0 t t Hf).
Defined.

Lemma Remove_semantics_witness :
  reachable int_hash example_table ∧
  (∀ fuel value t1,
     Insert int_hash fuel 16 value example_table = Done (tt, t1) →
     ∃ t2, Remove int_hash 16 t1 = Done (true, t2) ∧
           ∀ x, Find int_hash 16 x t2 = Done ((false, x), t2)) ∧
  (¬ present example_table 16 →
   Remove int_hash 16 example_table = Done (false, example_table)).
Proof.
  assert (reachable int_hash example_table) as Hr by apply table_of_reachable.
  split; [exact Hr|]. exact (Remove_semantics int_hash 16 example_table Hr).
Defined.

Lemma GetLocalDepth_semantics_witness :
  reachable int_hash example_table ∧
  0 ≤ 5 < Z.of_nat (length (dir_ example_table)) ∧
  (∃ l b, slot example_table (Z.to_nat 5) l b ∧
          GetLocalDepth 5 example_table = Done (depth_ b, example_table)) ∧
  ¬ 0 ≤ 8 < Z.of_nat (length (dir_ example_table)) ∧
  GetLocalDepth 8 example_table = Undefined.
Proof.
  assert (reachable int_hash example_table) as Hr by apply table_of_reachable.
  assert (0 ≤ 5 < Z.of_nat (length (dir_ example_table))) as H5
    by (vm_compute; split; [discriminate|reflexivity]).
  assert (¬ 0 ≤ 8 < Z.of_nat (length (dir_ example_table))) as H8
    by (vm_compute; intros [_ [=]]).
  split; [exact Hr|]. split; [exact H5|]. split.
  - exact (proj1 (GetLocalDepth_semantics int_hash 5 example_table) Hr H5).
  - split; [exact H8|].
    exact (proj2 (GetLocalDepth_semantics int_hash 8 example_table) H8).
Defined.

(** C8 as the specification states it fails: on the table just built,
    whose directory has one slot, [localDepth(1)] and [localDepth(-1)] are
    unchecked accesses, not [InvalidIndex] failures. *)
Lemma GetLocalDepth_counterexample :
  ¬ (GetLocalDepth 1 (new_table 2 : Table Z Z) = Failed InvalidIndex ∨
     GetLocalDepth (-1) (new_table 2 : Table Z Z) = Failed InvalidIndex).
Proof. intros [H|H]; vm_compute in H; discriminate. Qed.

Lemma Insert_other_key_witness :
  reachable int_hash example_table ∧
  8 ≠ 16 ∧
  Find int_hash 8 0 example_table = Done ((true, 12), example_table) ∧
  Insert int_hash 8 16 14 example_table
    = Done (tt, table_of 2 [(0, 10); (4, 11); (8, 12); (3, 13); (16, 14)]) ∧
  Find int_hash 8 0 (table_of 2 [(0, 10); (4, 11); (8, 12); (3, 13); (16, 14)])
    = Done ((true, 12),
            table_of 2 [(0, 10); (4, 11); (8, 12); (3, 13); (16, 14)]).
Proof.
  assert (reachable int_hash example_table) as Hr by apply table_of_reachable.
  assert (8 ≠ 16) as Hne by discriminate.
  assert (Find int_hash 8 0 example_table = Done ((true, 12), example_table))
    as Hf by (vm_compute; reflexivity).
  assert (Insert int_hash 8 16 14 example_table
    = Done (tt, table_of 2 [(0, 10); (4, 11); (8, 12); (3, 13); (16, 14)]))
    as Hi by (vm_compute; reflexivity).
  split; [exact Hr|]. split; [exact Hne|]. split; [exact Hf|].
  split; [exact Hi|].
  exact (Insert_other_key int_hash 8 8 16 12 14 0 example_table _ Hr Hne Hf Hi).
Defined.

Lemma Find_output_parameter_witness :
  reachable int_hash example_table ∧
  ∃ r, Find int_hash 7 42 example_table = Done (r, example_table) ∧
    (¬ present example_table 7 → r = (false, 42)) ∧
    (r.1 = false → r.2 = 42 ∧ ¬ present example_table 7) ∧
    (r.1 = true → stored example_table 7 r.2).
Proof.
  assert (reachable int_hash example_table) as Hr by apply table_of_reachable.
  split; [exact Hr|].
  exact (Find_output_parameter int_hash 7 42 example_table Hr).
Defined.

(** ** The further properties at work *)

Lemma example_slot_0 :
  slot example_table 0 6 (mkBucket 2 3 [(0, 10); (8, 12)]).
Proof. split; vm_compute; reflexivity. Qed.

Lemma example_slot_1 : slot example_table 1 1 (mkBucket 2 1 [(3, 13)]).
Proof. split; vm_compute; reflexivity. Qed.

Lemma example_slot_5 : slot example_table 5 1 (mkBucket 2 1 [(3, 13)]).
Proof. split; vm_compute; reflexivity. Qed.

Lemma example_addressed_16 :
  addressed int_hash 16 example_table 6 (mkBucket 2 3 [(0, 10); (8, 12)]).
Proof.
  split; [change (global_depth_ example_table) with 3; lia|].
  split; vm_compute; reflexivity.
Qed.

Lemma example_addressed_11 :
  addressed int_hash 11 example_table 1 (mkBucket 2 1 [(3, 13)]).
Proof.
  split; [change (global_depth_ example_table) with 3; lia|].
  split; vm_compute; reflexivity.
Qed.

Lemma capacity_respected_witness :
  reachable int_hash example_table ∧
  slot example_table 0 6 (mkBucket 2 3 [(0, 10); (8, 12)]) ∧
  (2 = bucket_size_ example_table ∧ (2 ≤ bucket_size_ example_table))%nat.
Proof.
  split; [apply table_of_reachable|]. split; [exact example_slot_0|].
  exact (capacity_respected int_hash example_table 0 6 _
           (table_of_reachable _ _) example_slot_0).
Defined.

Lemma depths_bounded_witness :
  reachable int_hash example_table ∧
  slot example_table 1 1 (mkBucket 2 1 [(3, 13)]) ∧
  0 ≤ 1 ≤ global_depth_ example_table ∧ global_depth_ example_table ≤ 30.
Proof.
  split; [apply table_of_reachable|]. split; [exact example_slot_1|].
  exact (depths_bounded int_hash example_table 1 1 _
           (table_of_reachable _ _) example_slot_1).
Defined.

Lemma slots_sharing_a_bucket_witness :
  reachable int_hash example_table ∧
  slot example_table 1 1 (mkBucket 2 1 [(3, 13)]) ∧
  (5 < length (dir_ example_table))%nat ∧
  (dir_ example_table !! 5%nat = Some (Some 1%nat) ↔
   Z.land (Z.of_nat 5) (Z.shiftl 1 1 - 1) = Z.land (Z.of_nat 1) (Z.shiftl 1 1 - 1)).
Proof.
  assert (5 < length (dir_ example_table))%nat as H5 by (vm_compute; lia).
  split; [apply table_of_reachable|]. split; [exact example_slot_1|].
  split; [exact H5|].
  exact (slots_sharing_a_bucket int_hash example_table 1 5 1 _
           (table_of_reachable _ _) example_slot_1 H5).
Defined.

Lemma keys_placed_witness :
  reachable int_hash example_table ∧
  slot example_table 0 6 (mkBucket 2 3 [(0, 10); (8, 12)]) ∧
  8 ∈ [0; 8] ∧
  addressed int_hash 8 example_table 6 (mkBucket 2 3 [(0, 10); (8, 12)]) ∧
  NoDup [0; 8] ∧
  Z.land (int_hash 8) (Z.shiftl 1 3 - 1) = Z.land (Z.of_nat 0) (Z.shiftl 1 3 - 1).
Proof.
  assert (8 ∈ [0; 8]) as Hin by (apply list_elem_of_further, list_elem_of_here).
  split; [apply table_of_reachable|]. split; [exact example_slot_0|].
  split; [exact Hin|].
  exact (keys_placed int_hash example_table 0 6 _ 8
           (table_of_reachable _ _) example_slot_0 Hin).
Defined.

Lemma key_value_unique_witness :
  reachable int_hash example_table ∧
  slot example_table 1 1 (mkBucket 2 1 [(3, 13)]) ∧
  slot example_table 5 1 (mkBucket 2 1 [(3, 13)]) ∧
  (3, 13) ∈ [(3, 13)] ∧
  13 = 13 ∧ 1%nat = 1%nat ∧
  mkBucket 2 1 [(3, 13)] = mkBucket 2 1 [(3, 13)].
Proof.
  assert ((3, 13) ∈ [(3, 13)]) as Hin by apply list_elem_of_here.
  split; [apply table_of_reachable|]. split; [exact example_slot_1|].
  split; [exact example_slot_5|]. split; [exact Hin|].
  exact (key_value_unique int_hash example_table 3 1 1 _ 13 5 1 _ 13
           (table_of_reachable _ _) example_slot_1 example_slot_5 Hin Hin).
Defined.

Lemma Find_Remove_return_witness :
  reachable int_hash example_table ∧
  (∃ r, Find int_hash 4 0 example_table = Done (r, example_table)) ∧
  (∃ r t', Remove int_hash 4 example_table = Done (r, t')).
Proof.
  split; [apply table_of_reachable|].
  exact (Find_Remove_return int_hash 4 0 example_table (table_of_reachable _ _)).
Defined.

Lemma Insert_changes_one_key_witness :
  reachable int_hash example_table ∧ 7 ≠ 16 ∧
  Find int_hash 7 0 example_table = Done ((false, 0), example_table) ∧
  Insert int_hash 8 16 14 example_table
    = Done (tt, table_of 2 [(0, 10); (4, 11); (8, 12); (3, 13); (16, 14)]) ∧
  Find int_hash 7 0 (table_of 2 [(0, 10); (4, 11); (8, 12); (3, 13); (16, 14)])
    = Done ((false, 0),
            table_of 2 [(0, 10); (4, 11); (8, 12); (3, 13); (16, 14)]).
Proof.
  assert (7 ≠ 16) as Hne by discriminate.
  assert (Find int_hash 7 0 example_table = Done ((false, 0), example_table))
    as Hf by (vm_compute; reflexivity).
  assert (Insert int_hash 8 16 14 example_table
    = Done (tt, table_of 2 [(0, 10); (4, 11); (8, 12); (3, 13); (16, 14)]))
    as Hi by (vm_compute; reflexivity).
  split; [apply table_of_reachable|]. split; [exact Hne|].
  split; [exact Hf|]. split; [exact Hi|].
  exact (Insert_changes_one_key int_hash 8 16 14 7 0 _ example_table _
           (table_of_reachable _ _) Hne Hf Hi).
Defined.

Lemma Remove_then_Find_witness :
  let t' := state_after (Remove int_hash 8 example_table) example_table in
  reachable int_hash example_table ∧
  Remove int_hash 8 example_table = Done (true, t') ∧
  (∀ x, ∃ v, Find int_hash 8 x example_table = Done ((true, v), example_table)) ∧
  (∀ x, Find int_hash 8 x t' = Done ((false, x), t')).
Proof.
  intros t'.
  assert (Remove int_hash 8 example_table = Done (true, t')) as Hr
    by (vm_compute; reflexivity).
  split; [apply table_of_reachable|]. split; [exact Hr|].
  exact (Remove_then_Find int_hash 8 example_table true t'
           (table_of_reachable _ _) Hr).
Defined.

Lemma Remove_changes_one_key_witness :
  let t' := state_after (Remove int_hash 8 example_table) example_table in
  0 ≠ 8 ∧
  Remove int_hash 8 example_table = Done (true, t') ∧
  Find int_hash 0 0 example_table = Done ((true, 10), example_table) ∧
  Find int_hash 0 0 t' = Done ((true, 10), t') ∧
  global_depth_ t' = global_depth_ example_table ∧
  dir_ t' = dir_ example_table ∧
  num_buckets_ t' = num_buckets_ example_table ∧
  bucket_size_ t' = bucket_size_ example_table ∧
  length (heap_ t') = length (heap_ example_table) ∧
  (∀ l b, heap_ example_table !! l = Some b →
     ∃ b', heap_ t' !! l = Some b' ∧ depth_ b' = depth_ b ∧ size_ b' = size_ b).
Proof.
  intros t'.
  assert (0 ≠ 8) as Hne by discriminate.
  assert (Remove int_hash 8 example_table = Done (true, t')) as Hr
    by (vm_compute; reflexivity).
  assert (Find int_hash 0 0 example_table = Done ((true, 10), example_table))
    as Hf by (vm_compute; reflexivity).
  split; [exact Hne|]. split; [exact Hr|]. split; [exact Hf|].
  exact (Remove_changes_one_key int_hash 8 0 0 _ true example_table t' Hne Hr Hf).
Defined.

Lemma Insert_grows_only_witness :
  let t' := table_of 2 [(0, 10); (4, 11); (8, 12); (3, 13); (16, 14)] in
  reachable int_hash example_table ∧
  Insert int_hash 8 16 14 example_table = Done (tt, t') ∧
  global_depth_ example_table ≤ global_depth_ t' ∧
  (length (dir_ example_table) ≤ length (dir_ t'))%nat ∧
  num_buckets_ example_table ≤ num_buckets_ t' ∧
  bucket_size_ t' = bucket_size_ example_table ∧
  (length (heap_ example_table) ≤ length (heap_ t'))%nat.
Proof.
  intros t'.
  assert (Insert int_hash 8 16 14 example_table = Done (tt, t')) as Hi
    by (vm_compute; reflexivity).
  split; [apply table_of_reachable|]. split; [exact Hi|].
  exact (Insert_grows_only int_hash 8 16 14 example_table t'
           (table_of_reachable _ _) Hi).
Defined.

Lemma SplitBucket_reassigns_witness :
  let t := grown (table_of 2 [(0, 10); (1, 11)]) in
  let t' := state_after (SplitBucket int_hash 2 t) t in
  Inv int_hash t ∧
  addressed int_hash 2 t 0 (mkBucket 2 0 [(0, 10); (1, 11)]) ∧
  SplitBucket int_hash 2 t = Done (tt, t') ∧
  (∀ i p, dir_ t !! i = Some p →
     dir_ t' !! i = Some
       (if decide (p = Some 0%nat) then
          if decide (Z.land (Z.of_nat i) 1 = 0) then Some 2%nat else Some 1%nat
        else p)) ∧
  length (dir_ t') = length (dir_ t) ∧
  (Some 0%nat ∉ dir_ t') ∧
  num_buckets_ t' = num_buckets_ t + 1 ∧
  global_depth_ t' = global_depth_ t.
Proof.
  intros t t'.
  assert (Inv int_hash t) as HI
    by (apply grown_Inv, reachable_Inv, table_of_reachable).
  assert (addressed int_hash 2 t 0 (mkBucket 2 0 [(0, 10); (1, 11)])) as Ha.
  { split; [|split; vm_compute; reflexivity].
    change (global_depth_ t) with 1. lia. }
  assert (SplitBucket int_hash 2 t = Done (tt, t')) as Hs
    by (vm_compute; reflexivity).
  split; [exact HI|]. split; [exact Ha|]. split; [exact Hs|].
  exact (SplitBucket_reassigns int_hash 2 t t' 0 _ HI Ha Hs).
Defined.

Lemma Insert_with_room_witness :
  addressed int_hash 11 example_table 1 (mkBucket 2 1 [(3, 13)]) ∧
  (11 ∉ [3]) ∧ (1 < 2)%nat ∧
  Insert int_hash 1 11 15 example_table
  = Done (tt, set_heap
           (<[1%nat := mkBucket 2 1 [(3, 13); (11, 15)]]> (heap_ example_table))
           example_table).
Proof.
  assert (11 ∉ [3]) as Hn by (intros [[=]|[]%elem_of_nil]%elem_of_cons).
  assert (1 < 2)%nat as Hlt by lia.
  split; [exact example_addressed_11|]. split; [exact Hn|]. split; [exact Hlt|].
  exact (Insert_with_room int_hash 0 11 15 example_table 1 _
           example_addressed_11 Hn Hlt).
Defined.

Lemma Insert_zero_capacity_witness :
  let t : Table Z Z := new_table 0 in
  reachable int_hash t ∧
  bucket_size_ t = 0%nat ∧
  (Insert int_hash 10 5 50 t = OutOfFuel ∨
   Insert int_hash 10 5 50 t = Undefined).
Proof.
  intros t.
  assert (reachable int_hash t) as Hr by apply reachable_new.
  assert (bucket_size_ t = 0%nat) as H0 by reflexivity.
  split; [exact Hr|]. split; [exact H0|].
  exact (Insert_zero_capacity int_hash 10 5 50 t Hr H0).
Defined.

Lemma GetNumBuckets_counts_witness :
  reachable int_hash example_table ∧
  GetNumBuckets example_table
    = Done (Z.of_nat (bucket_count example_table), example_table) ∧
  1 ≤ num_buckets_ example_table ≤ 2 ^ global_depth_ example_table.
Proof.
  split; [apply table_of_reachable|].
  exact (GetNumBuckets_counts int_hash example_table (table_of_reachable _ _)).
Defined.

Lemma Insert_returns_witness :
  reachable int_hash example_table ∧
  addressed int_hash 16 example_table 6 (mkBucket 2 3 [(0, 10); (8, 12)]) ∧
  0 ≤ 4 ≤ 30 ∧
  (length (filter (λ kv, same_low 4 (int_hash kv.1) (int_hash 16))
             [(0, 10); (8, 12)]%Z)
   < bucket_size_ example_table)%nat ∧
  ∃ fuel t', (fuel ≤ 32)%nat ∧
    Insert int_hash fuel 16 14 example_table = Done (tt, t').
Proof.
  assert (0 ≤ 4 ≤ 30) as HD by lia.
  assert (length (filter (λ kv, same_low 4 (int_hash kv.1) (int_hash 16))
             [(0, 10); (8, 12)]%Z)
   < bucket_size_ example_table)%nat as Hroom
    by (vm_compute; lia).
  split; [apply table_of_reachable|]. split; [exact example_addressed_16|].
  split; [exact HD|]. split; [exact Hroom|].
  exact (Insert_returns int_hash 16 14 example_table 6 _ 4
           (table_of_reachable _ _) example_addressed_16 HD Hroom).
Defined.

Lemma IndexOf_in_range_witness :
  reachable int_hash example_table ∧
  ∃ i, IndexOf int_hash 13 example_table = Done (i, example_table) ∧
       i = Z.land (int_hash 13) (Z.of_nat (length (dir_ example_table)) - 1) ∧
       0 ≤ i < Z.of_nat (length (dir_ example_table)).
Proof.
  split; [apply table_of_reachable|].
  exact (IndexOf_in_range int_hash 13 example_table (table_of_reachable _ _)).
Defined.

Lemma Remove_then_Insert_witness :
  let t1 := state_after (Remove int_hash 8 example_table) example_table in
  reachable int_hash example_table ∧
  Remove int_hash 8 example_table = Done (true, t1) ∧
  ∃ t2, Insert int_hash 1 8 77 t1 = Done (tt, t2) ∧
        dir_ t2 = dir_ example_table ∧
        global_depth_ t2 = global_depth_ example_table ∧
        num_buckets_ t2 = num_buckets_ example_table ∧
        ∀ x, Find int_hash 8 x t2 = Done ((true, 77), t2).
Proof.
  intros t1.
  assert (Remove int_hash 8 example_table = Done (true, t1)) as Hr
    by (vm_compute; reflexivity).
  split; [apply table_of_reachable|]. split; [exact Hr|].
  exact (Remove_then_Insert int_hash 8 77 0 example_table t1
           (table_of_reachable _ _) Hr).
Defined.
